(** * Tipsets, tipset contexts and API handlers of the node

    A shallow embedding of
    - [core/primitives/tipset/tipset.cpp] (the tipset creator, the static
      constructors and the accessors of a tipset),
    - the handlers of [core/api/make.cpp] that resolve tipset contexts, walk
      parent links, select winning sectors, fetch messages and call the VM,
    - [QueryResponderImpl::getItemStatus] of the retrieval market,
    followed by the properties of these functions. *)

From Stdlib Require Import ZArith List String Ascii Bool Lia Permutation.
From Stdlib.Strings Require Import Byte.
Import ListNotations.
Open Scope string_scope.
Open Scope list_scope.
Open Scope Z_scope.

Set Implicit Arguments.

(** ** outcome::result, exceptions and assertions *)

(** [TipsetError], the error category declared by tipset.cpp. *)
Inductive TipsetError : Type :=
| NO_BLOCKS
| MISMATCHING_HEIGHTS
| MISMATCHING_PARENTS
| TICKET_HAS_NO_VALUE
| TICKETS_COLLISION
| BLOCK_ORDER_FAILURE.

(** An error code carried by [outcome::result]: the categories the embedded
    functions produce themselves, VM exit codes (recognised by
    [isVMExitCode]) and the errors of collaborators (store, codec, proofs). *)
Inductive error : Type :=
| ETipset (e : TipsetError)
| ETodo
| EVMExitCode (code : Z)
| EOther (what : string).

(** What ends a C++ call without an [outcome::result]: an exception, a failed
    assertion, or an access the language leaves undefined. *)
Inductive abnormal : Type :=
| BadOptionalAccess            (* optional::value() on an empty optional *)
| OutcomeExcept (e : error)    (* OUTCOME_EXCEPT on a failed result *)
| AssertionFailed              (* assert / BOOST_ASSERT_MSG *)
| OutOfRange.                  (* operator[] outside the vector *)

Inductive outcome (T : Type) : Type :=
| success (v : T)
| failure (e : error)
| abort (why : abnormal).

Arguments success {T} v.
Arguments failure {T} e.
Arguments abort {T} why.

(** OUTCOME_TRY: continue on success, leave the function on anything else. *)
Definition bind {A B : Type} (r : outcome A) (k : A -> outcome B) : outcome B :=
  match r with
  | success v => k v
  | failure e => failure e
  | abort w => abort w
  end.

Notation "'TRY' x <- r ; k" := (bind r (fun x => k))
  (at level 10, x name, r at level 100, k at level 200).
Notation "'TRY_' r ; k" := (bind r (fun _ => k))
  (at level 10, r at level 100, k at level 200).

(** OUTCOME_EXCEPT: a failed result is thrown instead of returned. *)
Definition outcome_except {A : Type} (r : outcome A) : outcome A :=
  match r with
  | failure e => abort (OutcomeExcept e)
  | other => other
  end.

(** [optional::value()]. *)
Definition value {A : Type} (o : option A) : outcome A :=
  match o with
  | Some v => success v
  | None => abort BadOptionalAccess
  end.

(** [v[i]] on a vector. *)
Definition at_index {A : Type} (v : list A) (i : nat) : outcome A :=
  match nth_error v i with
  | Some x => success x
  | None => abort OutOfRange
  end.

Definition has_value {A : Type} (r : outcome A) : bool :=
  match r with success _ => true | _ => false end.

(** ** Primitive data *)

Definition CID := string.
Definition Buffer := list byte.
Definition TipsetHash := list byte.
Definition Address := string.

Definition CID_eq_dec : forall a b : CID, {a = b} + {a <> b} := string_dec.
Definition cids_eq_dec : forall a b : list CID, {a = b} + {a <> b} :=
  list_eq_dec string_dec.
Definition hash_eq_dec : forall a b : TipsetHash, {a = b} + {a <> b} :=
  list_eq_dec Byte.byte_eq_dec.

Record Ticket : Type := mkTicket { bytes : list byte }.

(** The fields of [block::BlockHeader] that the embedded functions read. *)
Record BlockHeader : Type := mkBlockHeader {
  miner : Address;
  ticket : option Ticket;
  parents : list CID;
  parent_weight : Z;
  height : Z;                      (* uint64_t *)
  parent_state_root : CID;
  parent_message_receipts : CID;
  messages : CID;
  timestamp : Z                    (* uint64_t *)
}.

Record TipsetKey : Type := mkTipsetKey {
  hash : TipsetHash;
  cids : list CID
}.

Record Tipset : Type := mkTipset {
  key : TipsetKey;
  blks : list BlockHeader
}.

(** The state of a [TipsetCreator]: two vectors kept in step. *)
Record TipsetCreator : Type := mkCreator {
  blks_ : list BlockHeader;
  cids_ : list CID
}.

(** The functions tipset.cpp calls and that are declared in other units:
    [ticket::compare] (a three-way comparison), [cid::getCidOfCbor] on a
    header, [TipsetKey::hash] on a cid list and the hash of the default
    constructed key. *)
Class TipsetPrimitives : Type := {
  compare : Ticket -> Ticket -> Z;
  getCidOfCbor : BlockHeader -> outcome CID;
  TipsetKey_hash : list CID -> outcome TipsetHash;
  emptyTipsetHash : TipsetHash
}.

(** Modelled from the spec: ticket.cpp is not among the sources; the spec
    orders tickets by byte comparison, that is lexicographically on the
    unsigned bytes, a proper prefix being smaller. *)
Fixpoint compare_bytes (l r : list byte) : Z :=
  match l, r with
  | [], [] => 0
  | [], _ :: _ => -1
  | _ :: _, [] => 1
  | x :: l', y :: r' =>
      match N.compare (Byte.to_N x) (Byte.to_N y) with
      | Lt => -1
      | Gt => 1
      | Eq => compare_bytes l' r'
      end
  end.

Definition ticket_byte_compare (l r : Ticket) : Z :=
  compare_bytes (bytes l) (bytes r).

(** ** tipset.cpp *)

Section TipsetCpp.
Context {P : TipsetPrimitives}.

(** [TipsetKey()] and [TipsetKey::create(cids)]. *)
Definition TipsetKey_default : TipsetKey :=
  {| hash := emptyTipsetHash; cids := [] |}.

Definition TipsetKey_create (cs : list CID) : outcome TipsetKey :=
  TRY h <- TipsetKey_hash cs;
  success {| hash := h; cids := cs |}.

(** [Tipset{}]. *)
Definition Tipset_default : Tipset :=
  {| key := TipsetKey_default; blks := [] |}.

Definition TipsetCreator_new : TipsetCreator :=
  {| blks_ := []; cids_ := [] |}.

Definition canExpandTipset (c : TipsetCreator) (hdr : BlockHeader)
  : outcome unit :=
  match blks_ c with
  | [] => success tt
  | first_block :: _ =>
      match ticket hdr with
      | None => failure (ETipset TICKET_HAS_NO_VALUE)
      | Some _ =>
          if negb (height hdr =? height first_block)
          then failure (ETipset MISMATCHING_HEIGHTS)
          else if cids_eq_dec (parents hdr) (parents first_block)
          then success tt
          else failure (ETipset MISMATCHING_PARENTS)
      end
  end.

(** The [for] loop of [expandTipset]: [idx] counts the blocks passed, the
    iterator [it] is [begin() + idx] throughout.  The result is the index at
    which the loop is left. *)
Fixpoint scan_blocks (t : Ticket) (rest : list BlockHeader) (idx : nat)
  : outcome nat :=
  match rest with
  | [] => success idx
  | b :: rest' =>
      TRY bt <- value (ticket b);
      let c := compare t bt in
      if c =? 0 then failure (ETipset TICKETS_COLLISION)
      else if c <? 0 then scan_blocks t rest' (S idx)
      else success idx
  end.

(** [v.insert(v.begin() + idx, x)]. *)
Definition insert_at {A : Type} (idx : nat) (x : A) (v : list A) : list A :=
  firstn idx v ++ x :: skipn idx v.

(** [expandTipset(cid, hdr)].  After the loop the iterator is advanced once
    more and compared with [end()]: with [it = begin() + idx] that is
    [idx + 1 = size].  When the loop ran to the end, [++it] steps past
    [end()] and the comparison fails, so the header is inserted at
    [begin() + size]. *)
Definition expandTipset_cid (c : TipsetCreator) (cid : CID)
    (hdr : BlockHeader) : outcome TipsetCreator :=
  if negb (has_value (canExpandTipset c hdr)) then abort AssertionFailed
  else
    match blks_ c with
    | [] => success {| blks_ := [hdr]; cids_ := cids_ c ++ [cid] |}
    | _ :: _ =>
        TRY t <- value (ticket hdr);
        TRY idx <- scan_blocks t (blks_ c) 0;
        if Nat.eqb (S idx) (List.length (blks_ c))
        then success {| blks_ := blks_ c ++ [hdr];
                        cids_ := cids_ c ++ [cid] |}
        else success {| blks_ := insert_at idx hdr (blks_ c);
                        cids_ := insert_at idx cid (cids_ c) |}
    end.

(** [expandTipset(hdr)]. *)
Definition expandTipset (c : TipsetCreator) (hdr : BlockHeader)
  : outcome TipsetCreator :=
  TRY cid <- getCidOfCbor hdr;
  expandTipset_cid c cid hdr.

(** [getTipset(clear)]: the tipset and the creator it leaves behind (the
    vectors are moved from when [clear] is set). *)
Definition getTipset (c : TipsetCreator) (clear : bool)
  : outcome (Tipset * TipsetCreator) :=
  match blks_ c with
  | [] => success (Tipset_default, c)
  | _ :: _ =>
      TRY k <- outcome_except (TipsetKey_create (cids_ c));
      success ({| key := k; blks := blks_ c |},
               if clear then TipsetCreator_new else c)
  end.

Definition TipsetCreator_height (c : TipsetCreator) : Z :=
  match blks_ c with
  | [] => 0
  | b :: _ => height b
  end.

(** The loop of [Tipset::create(std::vector<BlockHeader>)]. *)
Fixpoint create_loop (c : TipsetCreator) (blocks : list BlockHeader)
  : outcome TipsetCreator :=
  match blocks with
  | [] => success c
  | hdr :: rest =>
      TRY_ canExpandTipset c hdr;
      TRY c' <- expandTipset c hdr;
      create_loop c' rest
  end.

Definition create (blocks : list BlockHeader) : outcome Tipset :=
  TRY c <- create_loop TipsetCreator_new blocks;
  TRY r <- getTipset c true;
  success (fst r).

(** The loop of [Tipset::create(const TipsetHash &, BlocksAvailable)]. *)
Fixpoint create_available_loop (c : TipsetCreator)
    (blocks : list (option BlockHeader)) : outcome TipsetCreator :=
  match blocks with
  | [] => success c
  | None :: _ => failure (ETipset NO_BLOCKS)
  | Some hdr :: rest =>
      TRY_ canExpandTipset c hdr;
      TRY c' <- expandTipset c hdr;
      create_available_loop c' rest
  end.

Definition create_hash (h : TipsetHash) (blocks : list (option BlockHeader))
  : outcome Tipset :=
  TRY c <- create_available_loop TipsetCreator_new blocks;
  TRY r <- getTipset c true;
  let tipset := fst r in
  if hash_eq_dec (hash (key tipset)) h
  then success tipset
  else failure (ETipset BLOCK_ORDER_FAILURE).

(** *** Accessors.  Those that read [blks[0]] without a guard are partial. *)

Definition getParents (t : Tipset) : outcome TipsetKey :=
  match blks t with
  | [] => success TipsetKey_default
  | b :: _ => TipsetKey_create (parents b)
  end.

(** [std::min_element] over the timestamps of a non-empty range. *)
Fixpoint min_timestamp (first : Z) (rest : list BlockHeader) : Z :=
  match rest with
  | [] => first
  | b :: rest' =>
      min_timestamp (if timestamp b <? first then timestamp b else first)
                    rest'
  end.

Definition getMinTimestamp (t : Tipset) : Z :=
  match blks t with
  | [] => 0
  | b :: rest => min_timestamp (timestamp b) rest
  end.

Definition getMinTicketBlock (t : Tipset) : outcome BlockHeader :=
  at_index (blks t) 0.

Definition getParentStateRoot (t : Tipset) : outcome CID :=
  TRY b <- at_index (blks t) 0;
  success (parent_state_root b).

Definition getParentWeight (t : Tipset) : Z :=
  match blks t with
  | [] => 0
  | b :: _ => parent_weight b
  end.

Definition getParentMessageReceipts (t : Tipset) : outcome CID :=
  TRY b <- at_index (blks t) 0;
  success (parent_message_receipts b).

Definition Tipset_height (t : Tipset) : Z :=
  match blks t with
  | [] => 0
  | b :: _ => height b
  end.

Definition contains (t : Tipset) (cid : CID) : bool :=
  existsb (fun c => if CID_eq_dec c cid then true else false)
          (cids (key t)).

End TipsetCpp.

(** ** The content-addressed store *)

(** [Ipld]: the read side of the datastore interface. *)
Record Ipld : Type := mkIpld {
  get : CID -> outcome Buffer
}.

(** [codec::cbor::decode<T>], one instance per decoded type. *)
Class CborDecode (T : Type) : Type :=
  decode : Buffer -> outcome T.

(** Modelled from the spec: the datastore header is not among the sources;
    [getCbor<T>(cid)] fetches the bytes stored under [cid] and decodes them
    as a [T]. *)
Definition getCbor {T : Type} {D : CborDecode T} (ipld : Ipld) (cid : CID)
  : outcome T :=
  TRY raw <- get ipld cid;
  decode raw.

Section TipsetLoad.
Context {P : TipsetPrimitives} {DH : CborDecode BlockHeader}.

(** The loop of [Tipset::load]. *)
Fixpoint load_blocks (ipld : Ipld) (cs : list CID)
  : outcome (list BlockHeader) :=
  match cs with
  | [] => success []
  | cid :: rest =>
      TRY block <- getCbor ipld cid;
      TRY blocks <- load_blocks ipld rest;
      success (block :: blocks)
  end.

Definition load (ipld : Ipld) (cs : list CID) : outcome Tipset :=
  TRY blocks <- load_blocks ipld cs;
  create blocks.

Definition loadParent (ipld : Ipld) (t : Tipset) : outcome Tipset :=
  TRY b <- at_index (blks t) 0;
  load ipld (parents b).

End TipsetLoad.

(** ** make.cpp *)

Record UnsignedMessage : Type := mkUnsignedMessage {
  to : Address;
  from : Address;
  nonce : Z;
  method : Z;
  params : Buffer
}.

Record SignedMessage : Type := mkSignedMessage {
  message : UnsignedMessage;
  signature : Buffer
}.

Record InterpreterResult : Type := mkInterpreterResult {
  state_root : CID;
  message_receipts : CID
}.

Record StateTreeImpl : Type := mkStateTree {
  store : Ipld;
  root : CID
}.

Record TipsetContext : Type := mkTipsetContext {
  tipset : Tipset;
  state_tree : StateTreeImpl;
  interpreted : option InterpreterResult
}.

Record MessageReceipt : Type := mkMessageReceipt {
  exit_code : Z;
  return_value : Buffer;
  gas_used : Z
}.

Record InvocResult : Type := mkInvocResult {
  invoc_message : UnsignedMessage;
  receipt : MessageReceipt
}.

(** Modelled from the spec: exit_code.hpp is not among the sources; [kOk]
    is the exit code 0 of a successful call, and an error is a VM exit code
    when it belongs to the [VMExitCode] category. *)
Definition kOk : Z := 0.

Definition isVMExitCode (e : error) : bool :=
  match e with
  | EVMExitCode _ => true
  | _ => false
  end.

Definition kWinningPoStSectorSetLookback : Z := 10.

(** 64-bit conversions: [static_cast<uint64_t>] and the wrap-around of a
    signed result. *)
Definition to_uint64 (z : Z) : Z := z mod 2 ^ 64.
Definition to_int64 (z : Z) : Z := (z + 2 ^ 63) mod 2 ^ 64 - 2 ^ 63.

(** The collaborators [makeImpl] captures, as far as the embedded handlers
    use them: the store, the chain store's heaviest tipset, the interpreter,
    and the VM entered through [Env::applyImplicitMessage] with
    [normalizeVMExitCode]. *)
Class Node : Type := {
  ipld : Ipld;
  heaviestTipset : Tipset;
  interpret : Ipld -> Tipset -> outcome InterpreterResult;
  applyImplicitMessage : Ipld -> Tipset -> UnsignedMessage -> outcome Buffer;
  normalizeVMExitCode : Z -> option Z
}.

Section Api.
Context {P : TipsetPrimitives} {DH : CborDecode BlockHeader}
        {DS : CborDecode SignedMessage} {DU : CborDecode UnsignedMessage}
        {N : Node}.

Definition tipsetContext (tipset_key : TipsetKey) (interpret_flag : bool)
  : outcome TipsetContext :=
  TRY ts <- match cids tipset_key with
            | [] => success heaviestTipset
            | _ :: _ => load ipld (cids tipset_key)
            end;
  TRY parent_root <- getParentStateRoot ts;
  let context := {| tipset := ts;
                    state_tree := {| store := ipld; root := parent_root |};
                    interpreted := None |} in
  if interpret_flag then
    TRY result <- interpret ipld ts;
    success {| tipset := tipset context;
               state_tree := {| store := ipld; root := state_root result |};
               interpreted := Some result |}
  else success context.

(** The [while] loop of [getLookbackTipSetForRound]; [None] when [fuel]
    iterations did not reach the end of the loop. *)
Fixpoint lookback_loop (fuel : nat) (lookback : Z) (ts : Tipset)
  : option (outcome Tipset) :=
  if Tipset_height ts >? to_uint64 lookback then
    match fuel with
    | O => None
    | S fuel' =>
        match loadParent ipld ts with
        | success parent => lookback_loop fuel' lookback parent
        | failure e => Some (failure e)
        | abort w => Some (abort w)
        end
    end
  else Some (success ts).

Definition getLookbackTipSetForRound (fuel : nat) (ts : Tipset) (epoch : Z)
  : option (outcome TipsetContext) :=
  let lookback :=
    Z.max 0 (to_int64 (epoch - kWinningPoStSectorSetLookback)) in
  match lookback_loop fuel lookback ts with
  | None => None
  | Some r =>
      Some (TRY ts' <- r;
            TRY result <- interpret ipld ts';
            success {| tipset := ts';
                       state_tree := {| store := ipld;
                                        root := state_root result |};
                       interpreted := None |})
  end.

Definition ChainGetMessage (cid : CID) : outcome UnsignedMessage :=
  match getCbor (T := SignedMessage) ipld cid with
  | success sm => success (message sm)
  | abort w => abort w
  | failure _ => getCbor (T := UnsignedMessage) ipld cid
  end.

(** The [while] loop of [ChainGetTipSetByHeight]. *)
Fixpoint by_height_loop (fuel : nat) (h : Z) (ts : Tipset)
  : option (outcome Tipset) :=
  if Tipset_height ts >? h then
    match fuel with
    | O => None
    | S fuel' =>
        match loadParent ipld ts with
        | success parent =>
            if Tipset_height parent <? h then Some (success ts)
            else by_height_loop fuel' h parent
        | failure e => Some (failure e)
        | abort w => Some (abort w)
        end
    end
  else Some (success ts).

Definition ChainGetTipSetByHeight (fuel : nat) (height2 : Z)
    (tipset_key : TipsetKey) : option (outcome Tipset) :=
  let h := to_uint64 height2 in
  match tipsetContext tipset_key false with
  | success context =>
      if Tipset_height (tipset context) <? h then Some (failure ETodo)
      else by_height_loop fuel h (tipset context)
  | failure e => Some (failure e)
  | abort w => Some (abort w)
  end.

Definition StateCall (msg : UnsignedMessage) (tipset_key : TipsetKey)
  : outcome InvocResult :=
  TRY context <- tipsetContext tipset_key false;
  match applyImplicitMessage ipld (tipset context) msg with
  | success v =>
      success {| invoc_message := msg;
                 receipt := {| exit_code := kOk; return_value := v;
                               gas_used := 0 |} |}
  | failure e =>
      match e with
      | EVMExitCode code =>
          match normalizeVMExitCode code with
          | Some ret_code =>
              success {| invoc_message := msg;
                         receipt := {| exit_code := ret_code;
                                       return_value := [];
                                       gas_used := 0 |} |}
          | None => abort AssertionFailed
          end
      | _ => failure e
      end
  | abort w => abort w
  end.

End Api.

(** *** Winning sector selection *)

Definition RegisteredProof := Z.
Definition Randomness := Buffer.

Record SectorInfo : Type := mkSectorInfo {
  registered_proof : RegisteredProof;
  sector : Z;
  sealed_cid : CID
}.

Record MinerInfo : Type := mkMinerInfo {
  worker : Address;
  sector_size : Z
}.

Record MinerActorState : Type := mkMinerActorState {
  info : MinerInfo;
  proving_set : CID
}.

(** What [getSectorsForWinningPoSt] calls outside make.cpp: the two proof
    type tables, the traversal of the proving set (the sector numbers with
    the sealed cid of each, in visiting order), the id of an address and the
    challenge generator of the proofs library. *)
Class Proofs : Type := {
  sealProofTypeFromSectorSize : Z -> outcome RegisteredProof;
  getRegisteredWinningPoStProof : RegisteredProof -> outcome RegisteredProof;
  visitProvingSet : MinerActorState -> outcome (list (Z * CID));
  getId : Address -> Z;
  generateWinningPoStSectorChallenge :
    RegisteredProof -> Z -> Randomness -> Z -> outcome (list N)
}.

Section WinningPoSt.
Context {PR : Proofs}.

(** The [for] loop filling the local [result]. *)
Fixpoint collect_indices (sectors : list SectorInfo) (indices : list N)
  : outcome (list SectorInfo) :=
  match indices with
  | [] => success []
  | i :: rest =>
      TRY s <- at_index sectors (N.to_nat i);
      TRY result <- collect_indices sectors rest;
      success (s :: result)
  end.

Definition getSectorsForWinningPoSt (miner_addr : Address)
    (state : MinerActorState) (post_rand : Randomness)
  : outcome (list SectorInfo) :=
  TRY seal_type <- sealProofTypeFromSectorSize (sector_size (info state));
  TRY win_type <- getRegisteredWinningPoStProof seal_type;
  TRY visited <- visitProvingSet state;
  let sectors :=
    map (fun e => {| registered_proof := win_type; sector := fst e;
                     sealed_cid := snd e |}) visited in
  match sectors with
  | [] => success sectors
  | _ :: _ =>
      TRY indices <- generateWinningPoStSectorChallenge
                       win_type (getId miner_addr) post_rand
                       (Z.of_nat (List.length sectors));
      TRY result <- collect_indices sectors indices;
      (* [result] goes out of scope here *)
      success sectors
  end.

End WinningPoSt.

(** ** query_responder_impl.cpp *)

(** [pieceio::PiecePayloadLocation]: the code names [IPLD_STORE]; the other
    enumerator stands for a payload kept inside a sealed piece. *)
Inductive PiecePayloadLocation : Type :=
| IPLD_STORE
| SEALED_SECTOR.

Inductive QueryItemStatus : Type :=
| QueryItemAvailable
| QueryItemUnavailable.

Definition location_eqb (a b : PiecePayloadLocation) : bool :=
  match a, b with
  | IPLD_STORE, IPLD_STORE => true
  | SEALED_SECTOR, SEALED_SECTOR => true
  | _, _ => false
  end.

(** The piece locator [piece_io_->locatePiecePayload]: an error, or the
    location of the payload with the cid of its parent piece. *)
Class PieceIO : Type :=
  locatePiecePayload : CID -> error + (PiecePayloadLocation * CID).

Section QueryResponder.
Context {PIO : PieceIO}.

Definition getItemStatus (payload_cid piece_cid : CID) : QueryItemStatus :=
  match locatePiecePayload payload_cid with
  | inl _ => QueryItemUnavailable
  | inr result =>
      if negb (String.eqb piece_cid payload_cid)
         && negb (location_eqb (fst result) IPLD_STORE)
      then
        if negb (String.eqb (snd result) piece_cid)
        then QueryItemUnavailable
        else QueryItemAvailable
      else QueryItemAvailable
  end.

End QueryResponder.

(** ** Predicates used by the statements *)

Section Predicates.
Context {P : TipsetPrimitives} {DH : CborDecode BlockHeader} {N : Node}.

(** Adjacent blocks are strictly ascending under the ticket comparator. *)
Fixpoint strictly_ascending (bs : list BlockHeader) : Prop :=
  match bs with
  | b :: ((b' :: _) as rest) =>
      (exists t t', ticket b = Some t /\ ticket b' = Some t'
                    /\ compare t t' < 0)
      /\ strictly_ascending rest
  | _ => True
  end.

(** [ps] lists the successive parents of [ts] as [loadParent] finds them. *)
Fixpoint ancestors (ts : Tipset) (ps : list Tipset) : Prop :=
  match ps with
  | [] => True
  | p :: ps' => loadParent ipld ts = success p /\ ancestors p ps'
  end.

(** The input of [create] passes every check of the creator: one height,
    one parent list, tickets that never compare equal, and every ticket
    present unless the header is alone (the genesis block). *)
Definition compatible (b hdr : BlockHeader) : Prop :=
  height hdr = height b /\ parents hdr = parents b
  /\ (forall t bt, ticket hdr = Some t -> ticket b = Some bt ->
                   compare t bt <> 0).

Fixpoint pairwise_compatible (bs : list BlockHeader) : Prop :=
  match bs with
  | [] => True
  | b :: rest =>
      (forall hdr, In hdr rest -> compatible b hdr)
      /\ pairwise_compatible rest
  end.

Definition valid_headers (bs : list BlockHeader) : Prop :=
  pairwise_compatible bs
  /\ ((List.length bs <= 1)%nat \/ forall b, In b bs -> ticket b <> None).

(** The creator's two vectors are in step: each cid is the cid of the block
    at the same index. *)
Definition in_step (c : TipsetCreator) : Prop :=
  Forall2 (fun b cid => getCidOfCbor b = success cid) (blks_ c) (cids_ c).

(** All blocks have one height and one parent list. *)
Definition uniform (bs : list BlockHeader) : Prop :=
  forall b b', In b bs -> In b' bs ->
               height b = height b' /\ parents b = parents b'.

Definition interpreted_present (c : TipsetContext) : Prop :=
  interpreted c <> None.

Definition rooted_at_post_state (c : TipsetContext) : Prop :=
  exists r, interpret ipld (tipset c) = success r
            /\ root (state_tree c) = state_root r.

Definition rooted_at_parent_state (c : TipsetContext) : Prop :=
  getParentStateRoot (tipset c) = success (root (state_tree c)).

End Predicates.

(** ** Fixtures: a small chain, a store holding it and stub collaborators *)

Module Fixture.

Definition header (name : string) (t : byte) (ps : list CID) (h : Z)
  : BlockHeader :=
  {| miner := name; ticket := Some {| bytes := [t] |}; parents := ps;
     parent_weight := h; height := h;
     parent_state_root := String.append "state-before-" name;
     parent_message_receipts := String.append "receipts-before-" name;
     messages := String.append "messages-" name;
     timestamp := 100 * h |}.

Definition cid_of (hdr : BlockHeader) : CID :=
  String.append "blk-" (miner hdr).

Definition encode_header (hdr : BlockHeader) : Buffer :=
  list_byte_of_string (miner hdr).

Definition primitives : TipsetPrimitives :=
  {| compare := ticket_byte_compare;
     getCidOfCbor := fun hdr => success (cid_of hdr);
     TipsetKey_hash := fun cs =>
       success (list_byte_of_string (String.concat "," cs));
     emptyTipsetHash := [] |}.

(** Two siblings at height 10, as in the ordering scenario. *)
Definition b1 : BlockHeader := header "b1" x01 ["blk-h7"] 10.
Definition b2 : BlockHeader := header "b2" x02 ["blk-h7"] 10.
Definition b3 : BlockHeader := header "b3" x03 ["blk-h7"] 10.

(** A chain of single-block tipsets at heights 10, 7, 5 and 2. *)
Definition h2 : BlockHeader := header "h2" x09 [] 2.
Definition h5 : BlockHeader := header "h5" x08 ["blk-h2"] 5.
Definition h7 : BlockHeader := header "h7" x07 ["blk-h5"] 7.
Definition h10 : BlockHeader := header "h10" x06 ["blk-h7"] 10.

Definition stored_headers : list BlockHeader := [h2; h5; h7; h10; b1; b2].

Definition unsigned_msg : UnsignedMessage :=
  {| to := "t01"; from := "t0101"; nonce := 7; method := 0;
     params := [x2a] |}.
Definition inner_msg : UnsignedMessage :=
  {| to := "t02"; from := "t0102"; nonce := 3; method := 16;
     params := [] |}.
Definition signed_msg : SignedMessage :=
  {| message := inner_msg; signature := [xaa; xbb] |}.

Definition store_get (cid : CID) : outcome Buffer :=
  if String.eqb cid "msg-unsigned" then success [x01]
  else if String.eqb cid "msg-signed" then success [x02]
  else if String.eqb cid "raw" then success [x03]
  else
    match find (fun h => String.eqb (cid_of h) cid) stored_headers with
    | Some h => success (encode_header h)
    | None => failure (EOther "not found")
    end.

Definition the_store : Ipld := {| get := store_get |}.

Definition decode_header : CborDecode BlockHeader := fun raw =>
  match find (fun h => String.eqb (miner h) (string_of_list_byte raw))
             stored_headers with
  | Some h => success h
  | None => failure (EOther "not a block header")
  end.

Definition decode_signed : CborDecode SignedMessage := fun raw =>
  match raw with
  | [x02] => success signed_msg
  | _ => failure (EOther "not a signed message")
  end.

Definition decode_unsigned : CborDecode UnsignedMessage := fun raw =>
  match raw with
  | [x01] => success unsigned_msg
  | _ => failure (EOther "not an unsigned message")
  end.

Definition tipset_of (hdr : BlockHeader) : Tipset :=
  {| key := {| hash := list_byte_of_string (cid_of hdr);
               cids := [cid_of hdr] |};
     blks := [hdr] |}.

(** The stub interpreter roots the state after a tipset at a cid derived
    from its height; the stub VM answers by method number. *)
Definition node : Node :=
  {| ipld := the_store;
     heaviestTipset := tipset_of h10;
     interpret := fun _ ts =>
       match blks ts with
       | [] => failure (EOther "nothing to interpret")
       | b :: _ =>
           success {| state_root := String.append "state-after-" (miner b);
                      message_receipts :=
                        String.append "receipts-after-" (miner b) |}
       end;
     applyImplicitMessage := fun _ _ msg =>
       if method msg =? 0 then success (params msg)
       else if method msg =? 16 then failure (EVMExitCode 16)
       else failure (EOther "transport");
     normalizeVMExitCode := fun code =>
       if (0 <=? code) && (code <? 32) then Some code else None |}.

(** A proving set of two sectors and a challenge that picks the second. *)
Definition proofs : Proofs :=
  {| sealProofTypeFromSectorSize := fun size =>
       if size =? 2048 then success 3
       else failure (EOther "sector size");
     getRegisteredWinningPoStProof := fun seal => success (seal + 10);
     visitProvingSet := fun _ => success [(4, "sealed-4"); (9, "sealed-9")];
     getId := fun _ => 1000;
     generateWinningPoStSectorChallenge := fun _ _ _ _ => success [1%N] |}.

Definition miner_state : MinerActorState :=
  {| info := {| worker := "t0101"; sector_size := 2048 |};
     proving_set := "proving-set" |}.

(** A locator that finds one payload in the store and one inside a
    sealed piece. *)
Definition locator : PieceIO := fun payload =>
  if String.eqb payload "payload-in-store"
  then inr (IPLD_STORE, "piece-A")
  else if String.eqb payload "payload-in-piece"
  then inr (SEALED_SECTOR, "piece-A")
  else inl (EOther "unknown payload").

(** The sectors of the fixture's proving set as the selection builds them. *)
Definition s4 : SectorInfo :=
  {| registered_proof := 13; sector := 4; sealed_cid := "sealed-4" |}.
Definition s9 : SectorInfo :=
  {| registered_proof := 13; sector := 9; sealed_cid := "sealed-9" |}.

(** The tipsets of the chain, the key of its head and the context the head
    resolves to. *)
Definition t10 : Tipset := tipset_of h10.
Definition t7 : Tipset := tipset_of h7.
Definition t5 : Tipset := tipset_of h5.
Definition t2 : Tipset := tipset_of h2.

Definition head_key : TipsetKey := {| hash := []; cids := ["blk-h10"] |}.

Definition head_context : TipsetContext :=
  {| tipset := t10;
     state_tree := {| store := the_store; root := "state-before-h10" |};
     interpreted := None |}.

End Fixture.

(** ** Further parts of tipset.cpp and make.cpp *)

(** *** Decoding a tipset *)

(** [TipsetDecodeCandidate], the tuple [(cids, blks, height)] a tipset is
    encoded as. *)
Record TipsetDecodeCandidate : Type := mkCandidate {
  candidate_cids : list CID;
  candidate_blks : list BlockHeader;
  candidate_height : Z
}.

Section TipsetDecode.
Context {P : TipsetPrimitives} {DC : CborDecode TipsetDecodeCandidate}.

(** [codec::cbor::decode<Tipset>]. *)
Definition decode_Tipset (input : Buffer) : outcome Tipset :=
  TRY decoded <- decode (T := TipsetDecodeCandidate) input;
  if (Nat.eqb (List.length (candidate_blks decoded)) 0)
     && negb (candidate_height decoded =? 0)
  then failure (ETipset MISMATCHING_HEIGHTS)
  else
    TRY ts <- create (candidate_blks decoded);
    if cids_eq_dec (cids (key ts)) (candidate_cids decoded)
    then success ts
    else failure (ETipset BLOCK_ORDER_FAILURE).

End TipsetDecode.

(** *** Message arrays and the message visitor *)

(** [block::MsgMeta]: the roots of the two [adt::Array<CID>]. *)
Record MsgMeta : Type := mkMsgMeta {
  bls_messages : CID;
  secp_messages : CID
}.

(** Modelled from the spec: the array type is not among the sources; an
    array of cids is a lazy collection whose nodes are loaded from the store
    on demand and which is visited in index order.  A traversal is given by
    the entries it reaches and, when a node cannot be loaded, the error it
    ends with. *)
Class CidArrays : Type :=
  array_traversal : Ipld -> CID -> list CID * option error.

Section ArrayVisit.
Context {AR : CidArrays}.

(** The callback is run on the entries in order and stops the visit with
    its first failure. *)
Fixpoint visit_entries {S : Type} (f : S -> CID -> outcome S) (s : S)
    (entries : list CID) : outcome S :=
  match entries with
  | [] => success s
  | cid :: rest =>
      TRY s' <- f s cid;
      visit_entries f s' rest
  end.

(** [Array::visit]: [s] is what the callback has captured by reference. *)
Definition Array_visit {S : Type} (store_ : Ipld) (array_root : CID)
    (f : S -> CID -> outcome S) (s : S) : outcome S :=
  TRY s' <- visit_entries f s (fst (array_traversal store_ array_root));
  match snd (array_traversal store_ array_root) with
  | None => success s'
  | Some e => failure e
  end.

End ArrayVisit.

Section MessageVisitor.
Context {AR : CidArrays} {DM : CborDecode MsgMeta}.
Variable U : Type.

(** [MessageVisitor::Visitor]: called with the index of the message among
    the distinct ones, the flag telling a BLS message and the cid. *)
Definition Visitor : Type := U -> nat -> bool -> CID -> outcome U.

(** The lambda [onMessage]; the set [visited] is kept as the list of its
    elements, newest first. *)
Definition onMessage (visitor : Visitor) (is_bls : bool)
    (st : list CID * U) (cid : CID) : outcome (list CID * U) :=
  if in_dec CID_eq_dec cid (fst st) then success st
  else
    let visited' := cid :: fst st in
    TRY u' <- visitor (snd st) (List.length visited' - 1)%nat is_bls cid;
    success (visited', u').

(** [MessageVisitor::visit]. *)
Definition MessageVisitor_visit (store_ : Ipld) (visitor : Visitor)
    (st : list CID * U) (block : BlockHeader) : outcome (list CID * U) :=
  TRY meta <- getCbor (T := MsgMeta) store_ (messages block);
  TRY st1 <- Array_visit store_ (bls_messages meta)
               (onMessage visitor true) st;
  TRY st2 <- Array_visit store_ (secp_messages meta)
               (onMessage visitor false) st1;
  success st2.

(** The loop of [Tipset::visitMessages]. *)
Fixpoint visit_blocks (store_ : Ipld) (visitor : Visitor)
    (st : list CID * U) (blocks : list BlockHeader)
  : outcome (list CID * U) :=
  match blocks with
  | [] => success st
  | block :: rest =>
      TRY st' <- MessageVisitor_visit store_ visitor st block;
      visit_blocks store_ visitor st' rest
  end.

Definition visitMessages (store_ : Ipld) (visitor : Visitor) (u : U)
    (t : Tipset) : outcome U :=
  TRY st <- visit_blocks store_ visitor ([], u) (blks t);
  success (snd st).

End MessageVisitor.

(** *** Message handlers *)

Record BlockMessages : Type := mkBlockMessages {
  bm_bls : list UnsignedMessage;
  bm_secp : list SignedMessage;
  bm_cids : list CID
}.

Record CidMessage : Type := mkCidMessage {
  cm_cid : CID;
  cm_message : UnsignedMessage
}.

(** What [ChainGetNode] calls outside make.cpp: the parser of a cid and the
    resolver of a path below a root. *)
Class NodePaths (IpldObject : Type) : Type := {
  CID_fromString : string -> outcome CID;
  getNode : Ipld -> CID -> list string -> outcome IpldObject
}.

(** [boost::split(parts, path, c == '/')]: the tokens between the slashes,
    empty tokens kept. *)
Fixpoint split_slash (path : string) : list string :=
  match path with
  | EmptyString => [EmptyString]
  | String c rest =>
      if Ascii.eqb c "/"%char then EmptyString :: split_slash rest
      else
        match split_slash rest with
        | tok :: toks => String c tok :: toks
        | [] => [String c EmptyString]
        end
  end.

Section MessageHandlers.
Context {P : TipsetPrimitives} {DH : CborDecode BlockHeader}
        {DS : CborDecode SignedMessage} {DU : CborDecode UnsignedMessage}
        {DM : CborDecode MsgMeta} {AR : CidArrays} {N : Node}.

Definition ChainGetBlockMessages (block_cid : CID) : outcome BlockMessages :=
  let messages0 := {| bm_bls := []; bm_secp := []; bm_cids := [] |} in
  TRY block <- getCbor (T := BlockHeader) ipld block_cid;
  TRY meta <- getCbor (T := MsgMeta) ipld (messages block);
  TRY messages1 <-
    Array_visit ipld (bls_messages meta)
      (fun m cid =>
         TRY msg <- getCbor (T := UnsignedMessage) ipld cid;
         success {| bm_bls := bm_bls m ++ [msg]; bm_secp := bm_secp m;
                    bm_cids := bm_cids m ++ [cid] |})
      messages0;
  TRY messages2 <-
    Array_visit ipld (secp_messages meta)
      (fun m cid =>
         TRY msg <- getCbor (T := SignedMessage) ipld cid;
         success {| bm_bls := bm_bls m; bm_secp := bm_secp m ++ [msg];
                    bm_cids := bm_cids m ++ [cid] |})
      messages1;
  success messages2.

(** The body of the loop over [block.parents] in [ChainGetParentMessages]. *)
Definition parent_messages (acc : list CidMessage) (parent_cid : CID)
  : outcome (list CidMessage) :=
  TRY parent <- getCbor (T := BlockHeader) ipld parent_cid;
  TRY meta <- getCbor (T := MsgMeta) ipld (messages parent);
  TRY acc1 <-
    Array_visit ipld (bls_messages meta)
      (fun m cid =>
         TRY msg <- getCbor (T := UnsignedMessage) ipld cid;
         success (m ++ [{| cm_cid := cid; cm_message := msg |}]))
      acc;
  TRY acc2 <-
    Array_visit ipld (secp_messages meta)
      (fun m cid =>
         TRY msg <- getCbor (T := SignedMessage) ipld cid;
         success (m ++ [{| cm_cid := cid; cm_message := message msg |}]))
      acc1;
  success acc2.

Definition ChainGetParentMessages (block_cid : CID)
  : outcome (list CidMessage) :=
  TRY block <- getCbor (T := BlockHeader) ipld block_cid;
  visit_entries parent_messages [] (parents block).

Definition ChainGetGenesis (genesis : BlockHeader) : outcome Tipset :=
  create [genesis].

Definition ChainGetTipSet (tipset_key : TipsetKey) : outcome Tipset :=
  load ipld (cids tipset_key).

Definition ChainGetNode {IpldObject : Type} {NP : NodePaths IpldObject}
    (path : string) : outcome IpldObject :=
  match split_slash path with
  | p0 :: p1 :: p2 :: rest =>
      if negb (String.eqb p0 "") || negb (String.eqb p1 "ipfs")
      then failure ETodo
      else
        TRY node_root <- CID_fromString p2;
        getNode ipld node_root rest
  | _ => failure ETodo
  end.

End MessageHandlers.

(** *** Miner sectors *)

Record SectorOnChainInfo : Type := mkSectorOnChainInfo {
  on_chain_sealed_cid : CID;
  activation_epoch : Z
}.

Record ChainSectorInfo : Type := mkChainSectorInfo {
  csi_info : SectorOnChainInfo;
  csi_id : Z
}.

(** What [StateMinerSectors] reads through the state tree: the miner actor
    state at an address and the traversal of its sector map (the callback of
    the handler never fails, so the traversal either delivers every entry or
    ends with its own error). *)
Class MinerStates : Type := {
  minerState : StateTreeImpl -> Address -> outcome MinerActorState;
  visitSectors : MinerActorState -> outcome (list (Z * SectorOnChainInfo))
}.

Section MinerSectors.
Context {P : TipsetPrimitives} {DH : CborDecode BlockHeader} {N : Node}
        {MS : MinerStates}.

(** [filter->find(id) == filter->end()]. *)
Definition not_in_filter (bitset : list Z) (id : Z) : bool :=
  negb (existsb (Z.eqb id) bitset).

(** The condition under which the visiting lambda pushes a sector. *)
Definition sector_selected (sector_filter : option (list Z))
    (filter_out : bool) (id : Z) : bool :=
  match sector_filter with
  | None => true
  | Some bitset => Bool.eqb filter_out (not_in_filter bitset id)
  end.

Definition StateMinerSectors (address : Address)
    (sector_filter : option (list Z)) (filter_out : bool)
    (tipset_key : TipsetKey) : outcome (list ChainSectorInfo) :=
  TRY context <- tipsetContext tipset_key false;
  TRY state <- minerState (state_tree context) address;
  TRY entries <- visitSectors state;
  success
    (fold_left
       (fun sectors e =>
          if sector_selected sector_filter filter_out (fst e)
          then sectors ++ [{| csi_info := snd e; csi_id := fst e |}]
          else sectors)
       entries []).

End MinerSectors.


(** *** The calls a message visitor receives *)

Section VisitorCalls.
Context {AR : CidArrays}.
Variable U : Type.

(** The messages of a sequence that are not in [seen] and not repeated,
    each at its first occurrence. *)
Fixpoint first_occurrences (seen : list CID) (msgs : list (bool * CID))
  : list (bool * CID) :=
  match msgs with
  | [] => []
  | m :: rest =>
      if in_dec CID_eq_dec (snd m) seen then first_occurrences seen rest
      else m :: first_occurrences (snd m :: seen) rest
  end.

Fixpoint seen_after (seen : list CID) (msgs : list (bool * CID)) : list CID :=
  match msgs with
  | [] => seen
  | m :: rest =>
      if in_dec CID_eq_dec (snd m) seen then seen_after seen rest
      else seen_after (snd m :: seen) rest
  end.

(** The visitor run on a sequence of messages with consecutive indices. *)
Fixpoint run_calls (visitor : Visitor U) (u : U) (index : nat)
    (calls : list (bool * CID)) : outcome U :=
  match calls with
  | [] => success u
  | m :: rest =>
      TRY u' <- visitor u index (fst m) (snd m);
      run_calls visitor u' (S index) rest
  end.

(** The messages of a block: the BLS array, then the secp array. *)
Definition block_messages (store_ : Ipld) (meta : MsgMeta)
  : list (bool * CID) :=
  map (pair true) (fst (array_traversal store_ (bls_messages meta)))
  ++ map (pair false) (fst (array_traversal store_ (secp_messages meta))).

Definition arrays_intact (store_ : Ipld) (meta : MsgMeta) : Prop :=
  snd (array_traversal store_ (bls_messages meta)) = None
  /\ snd (array_traversal store_ (secp_messages meta)) = None.

End VisitorCalls.

Section StoredMessages.
Context {DS : CborDecode SignedMessage} {DU : CborDecode UnsignedMessage}
        {N : Node}.

(** The message stored under [cm_cid] is the returned one, directly or as
    the inner message of a signed message. *)
Definition stored_message (cm : CidMessage) : Prop :=
  getCbor (T := UnsignedMessage) ipld (cm_cid cm) = success (cm_message cm)
  \/ exists sm, getCbor (T := SignedMessage) ipld (cm_cid cm) = success sm
                /\ cm_message cm = message sm.

End StoredMessages.

(** *** Fixtures with messages *)

Module MessageFixture.
Import Fixture.

Definition unsigned_msg_2 : UnsignedMessage :=
  {| to := "t03"; from := "t0101"; nonce := 8; method := 2; params := [] |}.

Definition message_store_get (cid : CID) : outcome Buffer :=
  if String.eqb cid "messages-b1" then success [x10]
  else if String.eqb cid "messages-b2" then success [x11]
  else if String.eqb cid "messages-h7" then success [x10]
  else if String.eqb cid "msg-unsigned-2" then success [x04]
  else Fixture.store_get cid.

Definition message_store : Ipld := {| get := message_store_get |}.

Definition decode_meta : CborDecode MsgMeta := fun raw =>
  match raw with
  | [x10] => success {| bls_messages := "bls-1"; secp_messages := "secp-1" |}
  | [x11] => success {| bls_messages := "bls-2"; secp_messages := "secp-1" |}
  | _ => failure (EOther "not a message meta")
  end.

Definition decode_unsigned_messages : CborDecode UnsignedMessage := fun raw =>
  match raw with
  | [x01] => success unsigned_msg
  | [x04] => success unsigned_msg_2
  | _ => failure (EOther "not an unsigned message")
  end.

(** Both blocks carry the signed message, and the second block repeats the
    first one's BLS message before a new one. *)
Definition arrays : CidArrays := fun _ array_root =>
  if String.eqb array_root "bls-1" then (["msg-unsigned"], None)
  else if String.eqb array_root "bls-2"
       then (["msg-unsigned"; "msg-unsigned-2"], None)
  else if String.eqb array_root "secp-1" then (["msg-signed"], None)
  else ([], Some (EOther "array not found")).

Definition message_node : Node :=
  {| ipld := message_store;
     heaviestTipset := heaviestTipset (Node := Fixture.node);
     interpret := interpret (Node := Fixture.node);
     applyImplicitMessage := applyImplicitMessage (Node := Fixture.node);
     normalizeVMExitCode := normalizeVMExitCode (Node := Fixture.node) |}.

(** A visitor that records its calls. *)
Definition recorder : Visitor (list (nat * bool * CID)) :=
  fun calls index is_bls cid => success (calls ++ [(index, is_bls, cid)]).

Definition siblings : Tipset :=
  {| key := {| hash := []; cids := ["blk-b1"; "blk-b2"] |};
     blks := [b1; b2] |}.

(** The metas of the first and of the second block. *)
Definition meta_1 : MsgMeta :=
  {| bls_messages := "bls-1"; secp_messages := "secp-1" |}.
Definition meta_2 : MsgMeta :=
  {| bls_messages := "bls-2"; secp_messages := "secp-1" |}.

End MessageFixture.

(** *** Fixtures for the further properties *)

Module ExtraFixture.
Import Fixture.

(** A sibling whose ticket equals that of [b2], one with an earlier
    timestamp, one at another height, and a genesis header without ticket. *)
Definition b2dup : BlockHeader := header "b2dup" x02 ["blk-h7"] 10.

Definition early : BlockHeader :=
  {| miner := "early"; ticket := Some {| bytes := [x05] |};
     parents := ["blk-h7"]; parent_weight := 10; height := 10;
     parent_state_root := "state-before-early";
     parent_message_receipts := "receipts-before-early";
     messages := "messages-early"; timestamp := 900 |}.

Definition higher : BlockHeader := header "higher" x05 ["blk-h7"] 11.

Definition stranger : BlockHeader := header "stranger" x05 ["blk-h5"] 10.

Definition genesis : BlockHeader :=
  {| miner := "genesis"; ticket := None; parents := [];
     parent_weight := 0; height := 0;
     parent_state_root := "state-empty";
     parent_message_receipts := "receipts-empty";
     messages := "messages-genesis"; timestamp := 0 |}.

Definition decode_candidate : CborDecode TipsetDecodeCandidate := fun raw =>
  match raw with
  | [x20] => success {| candidate_cids := ["blk-b1"; "blk-b2"];
                        candidate_blks := [b1; b2];
                        candidate_height := 999 |}
  | [x21] => success {| candidate_cids := []; candidate_blks := [];
                        candidate_height := 5 |}
  | _ => failure (EOther "not a tipset")
  end.

(** A parser that accepts every non-empty string as a cid and a resolver
    that answers with the root and the path it was given. *)
Definition node_paths : NodePaths (CID * list string) :=
  {| CID_fromString := fun s =>
       if String.eqb s "" then failure (EOther "empty cid") else success s;
     getNode := fun _ node_root parts => success (node_root, parts) |}.

Definition info_of (sealed : CID) : SectorOnChainInfo :=
  {| on_chain_sealed_cid := sealed; activation_epoch := 3 |}.

Definition miner_states : MinerStates :=
  {| minerState := fun _ address =>
       if String.eqb address "t01000" then success miner_state
       else failure (EOther "actor not found");
     visitSectors := fun _ =>
       success [(4, info_of "sealed-4"); (7, info_of "sealed-7");
                (9, info_of "sealed-9")] |}.

(** Three siblings, the second with the earliest timestamp. *)
Definition mixed : Tipset :=
  {| key := {| hash := []; cids := ["blk-b1"; "blk-early"; "blk-b2"] |};
     blks := [b1; early; b2] |}.

End ExtraFixture.

(** * Properties *)

Unset Implicit Arguments.

(** ** The result monad *)

Lemma bind_success {A B : Type} (r : outcome A) (k : A -> outcome B) (v : B) :
  bind r k = success v -> exists a, r = success a /\ k a = success v.
Proof.
  destruct r as [a | e | w]; simpl; intros H; try discriminate.
  exists a. split; [reflexivity | exact H].
Qed.

Lemma bind_failure {A B : Type} (r : outcome A) (k : A -> outcome B) (e : error) :
  bind r k = failure e ->
  r = failure e \/ exists a, r = success a /\ k a = failure e.
Proof.
  destruct r as [a | e' | w]; simpl; intros H; try discriminate.
  - right. exists a. split; [reflexivity | exact H].
  - left. congruence.
Qed.

Lemma at_index_head {A : Type} (x : A) (rest : list A) :
  at_index (x :: rest) 0 = success x.
Proof. reflexivity. Qed.

Lemma at_index_nil {A : Type} (i : nat) :
  at_index (@nil A) i = abort OutOfRange.
Proof. destruct i; reflexivity. Qed.

(** ** The tipset creator *)

Section CreatorProperties.
Context {P : TipsetPrimitives}.

Lemma insert_at_permutation {A : Type} (idx : nat) (x : A) (v : list A) :
  Permutation (insert_at idx x v) (x :: v).
Proof.
  unfold insert_at. symmetry.
  rewrite <- (firstn_skipn idx v) at 1.
  apply Permutation_middle.
Qed.

(** The scanning loop only fails with a collision, and it runs through
    whenever every block it meets carries a ticket that differs from the
    new one. *)
Lemma scan_blocks_failure (t : Ticket) (l : list BlockHeader) :
  forall idx e, scan_blocks t l idx = failure e ->
                e = ETipset TICKETS_COLLISION.
Proof.
  induction l as [| b l IH]; simpl; intros idx e H; [discriminate |].
  destruct (ticket b) as [bt |]; simpl in H; [| discriminate].
  destruct (compare t bt =? 0); [congruence |].
  destruct (compare t bt <? 0); [eauto | discriminate].
Qed.

Lemma scan_blocks_total (t : Ticket) (l : list BlockHeader) :
  (forall b, In b l ->
             exists bt, ticket b = Some bt /\ compare t bt <> 0) ->
  forall idx, exists idx', scan_blocks t l idx = success idx'.
Proof.
  induction l as [| b l IH]; simpl; intros H idx; [eauto |].
  destruct (H b (or_introl eq_refl)) as (bt & Hbt & Hne).
  rewrite Hbt. simpl.
  apply Z.eqb_neq in Hne. rewrite Hne.
  destruct (compare t bt <? 0); [| eauto].
  apply IH. intros b' Hin. apply H. right. exact Hin.
Qed.

(** A successful expansion adds the header and its cid, nothing else. *)
Lemma expandTipset_cid_permutation c cid hdr c' :
  expandTipset_cid c cid hdr = success c' ->
  Permutation (blks_ c') (hdr :: blks_ c)
  /\ Permutation (cids_ c') (cid :: cids_ c).
Proof.
  unfold expandTipset_cid.
  destruct (negb (has_value (canExpandTipset c hdr))); [discriminate |].
  destruct (blks_ c) as [| first rest] eqn:Hb.
  - intros H. inversion H; subst; simpl. split.
    + apply Permutation_refl.
    + symmetry. apply Permutation_cons_append.
  - intros H.
    apply bind_success in H. destruct H as (t & _ & H).
    apply bind_success in H. destruct H as (idx & _ & H).
    destruct (Nat.eqb (S idx) (List.length (first :: rest)));
      inversion H; subst; simpl; split;
      try (symmetry; apply Permutation_cons_append);
      apply insert_at_permutation.
Qed.

Lemma canExpandTipset_success c hdr u :
  canExpandTipset c hdr = success u ->
  blks_ c = []
  \/ exists first rest,
       blks_ c = first :: rest /\ ticket hdr <> None
       /\ height hdr = height first /\ parents hdr = parents first.
Proof.
  unfold canExpandTipset.
  destruct (blks_ c) as [| first rest]; [left; reflexivity |].
  intros H. right. exists first, rest.
  destruct (ticket hdr) as [t |]; [| discriminate].
  destruct (height hdr =? height first) eqn:Hh; simpl in H; [| discriminate].
  destruct (cids_eq_dec (parents hdr) (parents first)); [| discriminate].
  apply Z.eqb_eq in Hh. repeat split; try assumption. discriminate.
Qed.

Lemma canExpandTipset_failure c hdr e :
  canExpandTipset c hdr = failure e ->
  e = ETipset TICKET_HAS_NO_VALUE \/ e = ETipset MISMATCHING_HEIGHTS
  \/ e = ETipset MISMATCHING_PARENTS.
Proof.
  unfold canExpandTipset.
  destruct (blks_ c) as [| first rest]; [discriminate |].
  destruct (ticket hdr) as [t |]; [| intros H; left; congruence].
  destruct (negb (height hdr =? height first));
    [intros H; right; left; congruence |].
  destruct (cids_eq_dec (parents hdr) (parents first)); [discriminate |].
  intros H; right; right; congruence.
Qed.

Lemma expandTipset_cid_failure c cid hdr e :
  expandTipset_cid c cid hdr = failure e -> e = ETipset TICKETS_COLLISION.
Proof.
  unfold expandTipset_cid.
  destruct (negb (has_value (canExpandTipset c hdr))); [discriminate |].
  destruct (blks_ c) as [| first rest]; [discriminate |].
  intros H. apply bind_failure in H. destruct H as [H | (t & _ & H)].
  - destruct (ticket hdr); discriminate.
  - apply bind_failure in H. destruct H as [H | (idx & _ & H)].
    + eapply scan_blocks_failure; eassumption.
    + destruct (Nat.eqb (S idx) (List.length (first :: rest)));
        discriminate.
Qed.

(** An expansion that passed [canExpandTipset] succeeds when the scan
    meets only tickets different from the new one. *)
Lemma expandTipset_cid_total c cid hdr :
  canExpandTipset c hdr = success tt ->
  (blks_ c = []
   \/ exists t, ticket hdr = Some t
                /\ forall b, In b (blks_ c) ->
                     exists bt, ticket b = Some bt /\ compare t bt <> 0) ->
  exists c', expandTipset_cid c cid hdr = success c'.
Proof.
  intros Hcan Hscan. unfold expandTipset_cid. rewrite Hcan. simpl.
  destruct (blks_ c) as [| first rest] eqn:Hb; [eauto |].
  destruct Hscan as [Hnil | (t & Ht & Hall)]; [discriminate |].
  rewrite Ht. cbn [value bind].
  destruct (scan_blocks_total t (first :: rest) Hall 0%nat) as (idx & Hidx).
  rewrite Hidx. cbn [bind].
  match goal with
  | |- context [if ?b then _ else _] => destruct b
  end; eauto.
Qed.

(** *** What the creator keeps true *)

Lemma Forall2_insert_at {A B : Type} (R : A -> B -> Prop) x y :
  R x y ->
  forall l1 l2, Forall2 R l1 l2 ->
  forall idx, Forall2 R (insert_at idx x l1) (insert_at idx y l2).
Proof.
  intros Hxy l1 l2 H. unfold insert_at.
  induction H as [| a b l1 l2 Hab H IH]; intros idx.
  - destruct idx; simpl; constructor; auto.
  - destruct idx; simpl.
    + constructor; [exact Hxy |]. constructor; assumption.
    + constructor; [exact Hab |]. apply IH.
Qed.

Lemma expandTipset_in_step c hdr c' :
  in_step c -> expandTipset c hdr = success c' -> in_step c'.
Proof.
  unfold in_step, expandTipset. intros Hin H.
  apply bind_success in H. destruct H as (cid & Hcid & H).
  unfold expandTipset_cid in H.
  destruct (negb (has_value (canExpandTipset c hdr))); [discriminate |].
  destruct (blks_ c) as [| first rest] eqn:Hb.
  - inversion H; subst; cbn [blks_ cids_].
    inversion Hin as [Hc |]. cbn [app].
    constructor; [exact Hcid | constructor].
  - apply bind_success in H. destruct H as (t & _ & H).
    apply bind_success in H. destruct H as (idx & _ & H).
    destruct (Nat.eqb (S idx) (List.length (first :: rest)));
      inversion H; subst; cbn [blks_ cids_].
    + change (first :: rest ++ [hdr]) with ((first :: rest) ++ [hdr]).
      apply Forall2_app; [exact Hin |]. constructor; [exact Hcid | constructor].
    + apply Forall2_insert_at; assumption.
Qed.

Lemma expandTipset_blocks c hdr c' :
  expandTipset c hdr = success c' -> Permutation (blks_ c') (hdr :: blks_ c).
Proof.
  unfold expandTipset. intros H.
  apply bind_success in H. destruct H as (cid & _ & H).
  apply expandTipset_cid_permutation in H. apply H.
Qed.

Lemma expand_uniform c hdr c' :
  uniform (blks_ c) ->
  canExpandTipset c hdr = success tt ->
  expandTipset c hdr = success c' ->
  uniform (blks_ c').
Proof.
  intros Hu Hcan Hex.
  pose proof (expandTipset_blocks _ _ _ Hex) as Hperm.
  assert (Hhdr : forall b, In b (blks_ c) ->
                   height hdr = height b /\ parents hdr = parents b).
  { intros b Hb.
    destruct (canExpandTipset_success _ _ _ Hcan)
      as [Hnil | (first & rest & Hc & _ & Hh & Hp)].
    - rewrite Hnil in Hb. destruct Hb.
    - assert (Hf : In first (blks_ c)) by (rewrite Hc; left; reflexivity).
      destruct (Hu first b Hf Hb) as [Hh' Hp']. split; congruence. }
  intros b b' Hb Hb'.
  apply (Permutation_in _ Hperm) in Hb.
  apply (Permutation_in _ Hperm) in Hb'.
  destruct Hb as [<- | Hb], Hb' as [<- | Hb'].
  - split; reflexivity.
  - apply Hhdr; assumption.
  - destruct (Hhdr b Hb). split; congruence.
  - apply Hu; assumption.
Qed.

Lemma create_loop_invariant blocks :
  forall c c', in_step c -> uniform (blks_ c) ->
               create_loop c blocks = success c' ->
               in_step c' /\ uniform (blks_ c')
               /\ Permutation (blks_ c') (blks_ c ++ blocks).
Proof.
  induction blocks as [| hdr rest IH]; simpl; intros c c' Hin Hu H.
  - inversion H; subst. rewrite app_nil_r. auto.
  - apply bind_success in H. destruct H as ([] & Hcan & H).
    apply bind_success in H. destruct H as (c1 & Hex & H).
    destruct (IH c1 c' (expandTipset_in_step _ _ _ Hin Hex)
                 (expand_uniform _ _ _ Hu Hcan Hex) H) as (Hin' & Hu' & Hp).
    split; [exact Hin' | split; [exact Hu' |]].
    eapply Permutation_trans; [exact Hp |].
    eapply Permutation_trans;
      [apply Permutation_app_tail; eapply expandTipset_blocks; eassumption |].
    simpl. apply Permutation_middle.
Qed.

Lemma create_loop_failure blocks :
  forall c e, create_loop c blocks = failure e ->
    e = ETipset TICKET_HAS_NO_VALUE \/ e = ETipset MISMATCHING_HEIGHTS
    \/ e = ETipset MISMATCHING_PARENTS \/ e = ETipset TICKETS_COLLISION
    \/ exists b, In b blocks /\ getCidOfCbor b = failure e.
Proof.
  induction blocks as [| hdr rest IH]; simpl; intros c e H; [discriminate |].
  apply bind_failure in H. destruct H as [H | ([] & Hcan & H)].
  - apply canExpandTipset_failure in H. intuition.
  - apply bind_failure in H. destruct H as [H | (c1 & Hex & H)].
    + unfold expandTipset in H. apply bind_failure in H.
      destruct H as [H | (cid & _ & H)].
      * do 4 right. exists hdr. auto.
      * apply expandTipset_cid_failure in H. intuition.
    + apply IH in H.
      destruct H as [H | [H | [H | [H | (b & Hb & H)]]]]; auto.
      do 4 right. exists b. auto.
Qed.

(** The loop runs through on a valid input. *)
Lemma create_loop_total blocks :
  forall c,
    pairwise_compatible blocks ->
    (forall b hdr, In b (blks_ c) -> In hdr blocks -> compatible b hdr) ->
    ((blks_ c = [] /\ (List.length blocks <= 1)%nat)
     \/ forall b, In b (blks_ c ++ blocks) -> ticket b <> None) ->
    (forall hdr, In hdr blocks -> exists cid, getCidOfCbor hdr = success cid) ->
    exists c', create_loop c blocks = success c'.
Proof.
  induction blocks as [| hdr rest IH]; simpl; intros c Hpw Hold Htk Hcid;
    [eauto |].
  destruct Hpw as [Hnew Hpw].
  destruct (Hcid hdr (or_introl eq_refl)) as (cid & Hc).
  assert (Hcan : canExpandTipset c hdr = success tt).
  { unfold canExpandTipset.
    destruct (blks_ c) as [| first l] eqn:Hb; [reflexivity |].
    destruct Htk as [[Hnil _] | Htk]; [discriminate |].
    assert (Ht : ticket hdr <> None).
    { apply Htk. apply in_or_app. right. left. reflexivity. }
    destruct (ticket hdr); [| congruence].
    destruct (Hold first hdr) as (Hh & Hp & _);
      [left; reflexivity | left; reflexivity |].
    rewrite Hh, Z.eqb_refl. simpl.
    destruct (cids_eq_dec (parents hdr) (parents first)); congruence. }
  assert (Hex : exists c1, expandTipset c hdr = success c1).
  { unfold expandTipset. rewrite Hc. simpl.
    apply expandTipset_cid_total; [exact Hcan |].
    destruct Htk as [[Hnil _] | Htk]; [left; exact Hnil |].
    right.
    destruct (ticket hdr) as [t |] eqn:Ht.
    - exists t. split; [reflexivity |]. intros b Hb.
      destruct (ticket b) as [bt |] eqn:Hbt.
      + exists bt. split; [reflexivity |].
        destruct (Hold b hdr Hb (or_introl eq_refl)) as (_ & _ & Hne).
        apply Hne; assumption.
      + exfalso. apply (Htk b); [apply in_or_app; left; exact Hb | exact Hbt].
    - exfalso. apply (Htk hdr); [| exact Ht].
      apply in_or_app. right. left. reflexivity. }
  destruct Hex as (c1 & Hex). rewrite Hcan, Hex. simpl.
  pose proof (expandTipset_blocks _ _ _ Hex) as Hperm.
  destruct rest as [| hdr2 rest2]; [simpl; eauto |].
  apply IH.
  - exact Hpw.
  - intros b hdr' Hb Hh'. apply (Permutation_in _ Hperm) in Hb.
    destruct Hb as [<- | Hb]; [apply Hnew; exact Hh' |].
    apply Hold; [exact Hb | right; exact Hh'].
  - destruct Htk as [[Hnil Hlen] | Htk].
    + simpl in Hlen. lia.
    + right. intros b Hb. apply Htk.
      apply in_app_or in Hb. destruct Hb as [Hb | Hb].
      * apply (Permutation_in _ Hperm) in Hb.
        destruct Hb as [<- | Hb];
          apply in_or_app; [right; left; reflexivity | left; exact Hb].
      * apply in_or_app. right. right. exact Hb.
  - intros hdr' Hh'. apply Hcid. right. exact Hh'.
Qed.

Lemma new_creator_in_step : in_step TipsetCreator_new.
Proof. constructor. Qed.

Lemma new_creator_uniform : uniform (blks_ TipsetCreator_new).
Proof. intros b b' []. Qed.

(** [create] hands out the vectors the loop has built. *)
Lemma create_success blocks t :
  create blocks = success t ->
  exists c, create_loop TipsetCreator_new blocks = success c
            /\ blks t = blks_ c /\ cids (key t) = cids_ c.
Proof.
  unfold create. intros H.
  apply bind_success in H. destruct H as (c & Hloop & H).
  apply bind_success in H. destruct H as ([t' c'] & Hget & H).
  inversion H; subst; clear H. exists c. split; [exact Hloop |].
  destruct (create_loop_invariant _ _ _ new_creator_in_step
              new_creator_uniform Hloop) as (Hin & _ & _).
  unfold getTipset in Hget. red in Hin.
  destruct (blks_ c) as [| b rest] eqn:Hb.
  - inversion Hget; subst; simpl. inversion Hin. auto.
  - apply bind_success in Hget. destruct Hget as (k & Hk & Hget).
    inversion Hget; subst; simpl. split; [reflexivity |].
    unfold TipsetKey_create in Hk.
    destruct (TipsetKey_hash (cids_ c)); simpl in Hk; try discriminate.
    inversion Hk; reflexivity.
Qed.

(** The blocks of a created tipset are the input headers, they share one
    height and one parent list, and the key lists their cids in block
    order. *)
Lemma create_blocks blocks t :
  create blocks = success t ->
  Permutation (blks t) blocks
  /\ uniform (blks t)
  /\ Forall2 (fun b cid => getCidOfCbor b = success cid)
             (blks t) (cids (key t)).
Proof.
  intros H. apply create_success in H.
  destruct H as (c & Hloop & Hb & Hc).
  destruct (create_loop_invariant _ _ _ new_creator_in_step
              new_creator_uniform Hloop) as (Hin & Hu & Hp).
  rewrite Hb, Hc. auto.
Qed.

Lemma create_total blocks :
  blocks <> [] ->
  valid_headers blocks ->
  (forall b, In b blocks -> exists cid, getCidOfCbor b = success cid) ->
  (forall cs, exists h, TipsetKey_hash cs = success h) ->
  exists t, create blocks = success t
            /\ blks t <> [] /\ Permutation (blks t) blocks.
Proof.
  intros Hne [Hpw Htk] Hcid Hhash.
  destruct (create_loop_total blocks TipsetCreator_new) as (c & Hloop).
  - exact Hpw.
  - intros b hdr [].
  - destruct Htk as [Hlen | Htk]; [left; auto | right; exact Htk].
  - exact Hcid.
  - destruct (create_loop_invariant _ _ _ new_creator_in_step
                new_creator_uniform Hloop) as (_ & _ & Hp).
    simpl in Hp. unfold create. rewrite Hloop. cbn [bind].
    unfold getTipset.
    destruct (blks_ c) as [| b rest] eqn:Hb.
    + apply Permutation_nil in Hp. contradiction.
    + unfold TipsetKey_create.
      destruct (Hhash (cids_ c)) as (h & Hh). rewrite Hh. simpl.
      eexists. split; [reflexivity |]. simpl. split; [discriminate | exact Hp].
Qed.

Lemma create_failure blocks e :
  create blocks = failure e ->
  e = ETipset TICKET_HAS_NO_VALUE \/ e = ETipset MISMATCHING_HEIGHTS
  \/ e = ETipset MISMATCHING_PARENTS \/ e = ETipset TICKETS_COLLISION
  \/ exists b, In b blocks /\ getCidOfCbor b = failure e.
Proof.
  unfold create. intros H.
  apply bind_failure in H. destruct H as [H | (c & _ & H)].
  - apply create_loop_failure in H. exact H.
  - exfalso. unfold getTipset in H.
    destruct (blks_ c); [discriminate |].
    unfold TipsetKey_create in H.
    destruct (TipsetKey_hash (cids_ c)); discriminate.
Qed.

(** Once the block vector holds a block with a smaller ticket in front,
    a new block whose ticket is smaller than all present ones is put at
    the end, behind the larger ones. *)
Lemma scan_blocks_all_smaller t l :
  (forall b, In b l -> exists bt, ticket b = Some bt /\ compare t bt < 0) ->
  forall idx, scan_blocks t l idx = success (idx + List.length l)%nat.
Proof.
  induction l as [| b l IH]; simpl; intros H idx.
  - f_equal. lia.
  - destruct (H b (or_introl eq_refl)) as (bt & Hbt & Hlt).
    rewrite Hbt. simpl.
    destruct (Z.eqb_spec (compare t bt) 0); [lia |].
    destruct (Z.ltb_spec (compare t bt) 0); [| lia].
    rewrite IH; [f_equal; lia |].
    intros b' Hb'. apply H. right. exact Hb'.
Qed.

Lemma expand_smaller_goes_last c cid hdr t first rest c' :
  blks_ c = first :: rest ->
  ticket hdr = Some t ->
  (forall b, In b (blks_ c) ->
             exists bt, ticket b = Some bt /\ compare t bt < 0) ->
  expandTipset_cid c cid hdr = success c' ->
  blks_ c' = blks_ c ++ [hdr].
Proof.
  intros Hb Ht Hall. unfold expandTipset_cid.
  destruct (negb (has_value (canExpandTipset c hdr))); [discriminate |].
  rewrite Ht. cbn [value bind].
  rewrite (scan_blocks_all_smaller t (blks_ c) Hall 0%nat).
  rewrite Hb. cbn [bind]. rewrite <- Hb.
  destruct (Nat.eqb (S (0 + List.length (blks_ c))) (List.length (blks_ c)));
    intros H; inversion H; subst; cbn [blks_]; [reflexivity |].
  unfold insert_at. simpl.
  rewrite firstn_all, skipn_all. reflexivity.
Qed.

(** Whatever the comparator: of two compatible headers, the one with the
    smaller ticket given second stays second. *)
Lemma create_smaller_second_stays_second b1 b2 t1 t2 c1 c2 h :
  ticket b1 = Some t1 -> ticket b2 = Some t2 -> compare t1 t2 < 0 ->
  height b1 = height b2 -> parents b1 = parents b2 ->
  getCidOfCbor b1 = success c1 -> getCidOfCbor b2 = success c2 ->
  TipsetKey_hash [c2; c1] = success h ->
  create [b2; b1]
  = success {| key := {| hash := h; cids := [c2; c1] |}; blks := [b2; b1] |}.
Proof.
  intros Ht1 Ht2 Hlt Hh Hp Hc1 Hc2 Hk.
  unfold create, create_loop, expandTipset, expandTipset_cid, canExpandTipset.
  cbn. rewrite Hc2. cbn. rewrite Ht1, Ht2, Hc1, Hh, Z.eqb_refl. cbn.
  destruct (cids_eq_dec (parents b1) (parents b2)); [| contradiction].
  cbn.
  destruct (Z.eqb_spec (compare t1 t2) 0); [lia |].
  destruct (Z.ltb_spec (compare t1 t2) 0); [| lia].
  cbn. unfold getTipset, TipsetKey_create. cbn. rewrite Hk. reflexivity.
Qed.

(** [Tipset::create(hash, blocks)] answers [NoBlocks] only for an absent
    entry of [blocks]. *)
Lemma create_available_loop_NoBlocks blocks :
  (forall b, getCidOfCbor b <> failure (ETipset NO_BLOCKS)) ->
  forall c, create_available_loop c blocks = failure (ETipset NO_BLOCKS) ->
            In None blocks.
Proof.
  intros Hcodec. induction blocks as [| [hdr |] rest IH]; simpl; intros c H.
  - discriminate.
  - right. apply bind_failure in H. destruct H as [H | ([] & _ & H)].
    + apply canExpandTipset_failure in H.
      destruct H as [H | [H | H]]; discriminate.
    + apply bind_failure in H. destruct H as [H | (c1 & _ & H)].
      * unfold expandTipset in H. apply bind_failure in H.
        destruct H as [H | (cid & _ & H)]; [destruct (Hcodec hdr H) |].
        apply expandTipset_cid_failure in H. discriminate.
      * apply IH in H. exact H.
  - left. reflexivity.
Qed.

Lemma create_hash_NoBlocks h blocks :
  (forall b, getCidOfCbor b <> failure (ETipset NO_BLOCKS)) ->
  create_hash h blocks = failure (ETipset NO_BLOCKS) -> In None blocks.
Proof.
  intros Hcodec H. unfold create_hash in H.
  apply bind_failure in H. destruct H as [H | (c & _ & H)].
  - eapply create_available_loop_NoBlocks; eassumption.
  - exfalso. apply bind_failure in H. destruct H as [H | ([t c'] & _ & H)].
    + unfold getTipset in H. destruct (blks_ c); [discriminate |].
      unfold TipsetKey_create in H.
      destruct (TipsetKey_hash (cids_ c)); discriminate.
    + cbn in H. destruct (hash_eq_dec (hash (key t)) h); discriminate.
Qed.

Lemma create_hash_absent_first h rest :
  create_hash h (None :: rest) = failure (ETipset NO_BLOCKS).
Proof. reflexivity. Qed.

(** C4, as amended.  [Tipset::create(headers)] has no path to [NoBlocks]:
    unless the cid codec itself reports that code, the result is never
    [NoBlocks]; on the empty list it succeeds with the default (empty)
    tipset; and on a non-empty valid list, whose cids and key hash can be
    computed, it succeeds with a non-empty tipset made of the input
    headers. *)
Theorem create_never_NoBlocks (blocks : list BlockHeader) :
  (forall b, getCidOfCbor b <> failure (ETipset NO_BLOCKS)) ->
  create blocks <> failure (ETipset NO_BLOCKS)
  /\ create [] = success Tipset_default
  /\ (blocks <> [] ->
      valid_headers blocks ->
      (forall b, In b blocks -> exists cid, getCidOfCbor b = success cid) ->
      (forall cs, exists h, TipsetKey_hash cs = success h) ->
      exists t, create blocks = success t
                /\ blks t <> [] /\ Permutation (blks t) blocks).
Proof.
  intros Hcodec. split; [| split].
  - intros H. apply create_failure in H.
    destruct H as [H | [H | [H | [H | (b & _ & H)]]]]; try discriminate.
    exact (Hcodec b H).
  - reflexivity.
  - apply create_total.
Qed.

(** C9.  On a tipset without blocks, [height()], [getMinTimestamp()] and
    [getParentWeight()] are 0 and [getParents()] is the default key, whose
    cid list is empty; [getParentStateRoot()], [getParentMessageReceipts()]
    and [getMinTicketBlock()] read [blks[0]] outside the vector there, and
    return the field of the first block on every tipset that has one. *)
Theorem empty_tipset_accessors (k : TipsetKey) :
  let empty := {| key := k; blks := [] |} in
  (Tipset_height empty = 0
   /\ getMinTimestamp empty = 0
   /\ getParentWeight empty = 0
   /\ getParents empty = success TipsetKey_default
   /\ cids TipsetKey_default = [])
  /\ (getParentStateRoot empty = abort OutOfRange
      /\ getParentMessageReceipts empty = abort OutOfRange
      /\ getMinTicketBlock empty = abort OutOfRange)
  /\ (forall b rest,
        let t := {| key := k; blks := b :: rest |} in
        getParentStateRoot t = success (parent_state_root b)
        /\ getParentMessageReceipts t = success (parent_message_receipts b)
        /\ getMinTicketBlock t = success b).
Proof.
  cbv zeta. repeat split.
Qed.

End CreatorProperties.

(** ** The ordering scenario on the fixture *)

Module OrderingScenario.
Import Fixture.

#[local] Existing Instance primitives.

(** C1.  Creating a tipset from the header with ticket 0x02 followed by
    the header with ticket 0x01 (same height, same parents) succeeds and
    keeps the input order: the blocks are [b2; b1], the key lists
    [cid b2; cid b1], and the result is not ascending under the ticket
    comparator.  Three headers given in ascending ticket order come out as
    [b3; b1; b2]. *)
Theorem create_reversed_pair_unsorted :
  (exists t, create [b2; b1] = success t
             /\ blks t = [b2; b1]
             /\ cids (key t) = [cid_of b2; cid_of b1]
             /\ ~ strictly_ascending (blks t))
  /\ (exists t, create [b1; b2; b3] = success t
                /\ blks t = [b3; b1; b2]
                /\ ~ strictly_ascending (blks t)).
Proof.
  split; eexists; (split; [reflexivity |]); cbn [blks key cids].
  - split; [reflexivity | split; [reflexivity |]].
    intros [(t & t' & Ht & Ht' & Hlt) _].
    inversion Ht; inversion Ht'; subst. vm_compute in Hlt. discriminate.
  - split; [reflexivity |].
    intros [(t & t' & Ht & Ht' & Hlt) _].
    inversion Ht; inversion Ht'; subst. vm_compute in Hlt. discriminate.
Qed.

(** The same two headers in ascending input order do come out ascending. *)
Example create_ordered_pair :
  exists t, create [b1; b2] = success t /\ blks t = [b1; b2]
            /\ strictly_ascending (blks t).
Proof.
  eexists. split; [reflexivity |]. split; [reflexivity |].
  simpl. split; [| exact I].
  eexists _, _. repeat split.
Qed.

(** C4, the claim as stated fails on the empty list: [create] does not
    answer [NoBlocks] there although the input is empty. *)
Lemma create_empty_not_NoBlocks :
  ~ (create [] = failure (ETipset NO_BLOCKS) <-> @nil BlockHeader = []).
Proof.
  intros [_ H]. specialize (H eq_refl). discriminate H.
Qed.

Lemma pair_valid : valid_headers [b2; b1].
Proof.
  split.
  - simpl. split; [| split; [| exact I]].
    + intros hdr [<- | []]. repeat split. intros t bt Ht Hbt.
      inversion Ht; inversion Hbt; subst. vm_compute. discriminate.
    + intros hdr [].
  - right. intros b [<- | [<- | []]]; discriminate.
Qed.

Lemma create_never_NoBlocks_witness :
  create [b2; b1] <> failure (ETipset NO_BLOCKS)
  /\ create [] = success Tipset_default
  /\ exists t, create [b2; b1] = success t
               /\ blks t <> [] /\ Permutation (blks t) [b2; b1].
Proof.
  destruct (create_never_NoBlocks [b2; b1]) as (H1 & H2 & H3).
  - intros b. discriminate.
  - split; [exact H1 | split; [exact H2 |]].
    apply H3.
    + discriminate.
    + exact pair_valid.
    + intros b _. eexists. reflexivity.
    + intros cs. eexists. reflexivity.
Defined.

End OrderingScenario.

(** ** Handlers of make.cpp *)

Section HandlerProperties.
Context {P : TipsetPrimitives} {DH : CborDecode BlockHeader}
        {DS : CborDecode SignedMessage} {DU : CborDecode UnsignedMessage}
        {N : Node}.

(** C10.  [ChainGetMessage] tries the stored object as a signed message
    first and answers its inner message; only when that fails it answers
    what decoding as an unsigned message gives, so it fails only when both
    attempts fail (and then with the error of the second). *)
Theorem ChainGetMessage_signed_first (cid : CID) :
  (forall sm,
      getCbor (T := SignedMessage) ipld cid = success sm ->
      ChainGetMessage cid = success (message sm))
  /\ (forall e,
         getCbor (T := SignedMessage) ipld cid = failure e ->
         ChainGetMessage cid = getCbor (T := UnsignedMessage) ipld cid)
  /\ (forall e,
         ChainGetMessage cid = failure e ->
         (exists e', getCbor (T := SignedMessage) ipld cid = failure e')
         /\ getCbor (T := UnsignedMessage) ipld cid = failure e).
Proof.
  unfold ChainGetMessage. repeat split.
  - intros sm H. rewrite H. reflexivity.
  - intros e H. rewrite H. reflexivity.
  - destruct (getCbor (T := SignedMessage) ipld cid) as [sm | e' | w];
      [discriminate | eauto | discriminate].
  - destruct (getCbor (T := SignedMessage) ipld cid) as [sm | e' | w];
      [discriminate | assumption | discriminate].
Qed.

(** Seen from the stored bytes: both decoders run on the same buffer. *)
Lemma ChainGetMessage_decoders (cid : CID) (raw : Buffer) :
  get ipld cid = success raw ->
  ChainGetMessage cid =
  match decode (T := SignedMessage) raw with
  | success sm => success (message sm)
  | failure _ => decode (T := UnsignedMessage) raw
  | abort w => abort w
  end.
Proof.
  intros H. unfold ChainGetMessage, getCbor. rewrite H. reflexivity.
Qed.

(** C6.  [StateCall]: a successful implicit application gives the receipt
    (Ok, returned value, 0); a VM exit code that normalises gives
    (normalised code, empty, 0); any other failure, of the application or
    of resolving the tipset, is handed to the caller as it is. *)
Theorem StateCall_receipt (msg : UnsignedMessage) (tipset_key : TipsetKey) :
  (forall context v,
      tipsetContext tipset_key false = success context ->
      applyImplicitMessage ipld (tipset context) msg = success v ->
      StateCall msg tipset_key =
      success {| invoc_message := msg;
                 receipt := {| exit_code := kOk; return_value := v;
                               gas_used := 0 |} |})
  /\ (forall context code ret_code,
         tipsetContext tipset_key false = success context ->
         applyImplicitMessage ipld (tipset context) msg
         = failure (EVMExitCode code) ->
         normalizeVMExitCode code = Some ret_code ->
         StateCall msg tipset_key =
         success {| invoc_message := msg;
                    receipt := {| exit_code := ret_code; return_value := [];
                                  gas_used := 0 |} |})
  /\ (forall context e,
         tipsetContext tipset_key false = success context ->
         applyImplicitMessage ipld (tipset context) msg = failure e ->
         isVMExitCode e = false ->
         StateCall msg tipset_key = failure e)
  /\ (forall e,
         tipsetContext tipset_key false = failure e ->
         StateCall msg tipset_key = failure e).
Proof.
  unfold StateCall. repeat split.
  - intros context v Hc Ha. rewrite Hc. cbn [bind]. rewrite Ha. reflexivity.
  - intros context code ret_code Hc Ha Hn. rewrite Hc. cbn [bind].
    rewrite Ha, Hn. reflexivity.
  - intros context e Hc Ha Hvm. rewrite Hc. cbn [bind]. rewrite Ha.
    destruct e; try reflexivity. discriminate Hvm.
  - intros e Hc. rewrite Hc. reflexivity.
Qed.

(** A VM exit code outside the normalised ones stops at the assertion. *)
Lemma StateCall_unknown_exit_code msg tipset_key context code :
  tipsetContext tipset_key false = success context ->
  applyImplicitMessage ipld (tipset context) msg
  = failure (EVMExitCode code) ->
  normalizeVMExitCode code = None ->
  StateCall msg tipset_key = abort AssertionFailed.
Proof.
  intros Hc Ha Hn. unfold StateCall. rewrite Hc. cbn [bind].
  rewrite Ha, Hn. reflexivity.
Qed.

(** C7, as amended.  In a context produced by [tipsetContext] the field
    [interpreted] is present exactly when interpretation was requested;
    when present it holds the interpreter's result and the state tree is
    rooted at its state root, when absent the state tree is rooted at the
    parent state root of the tipset. *)
Theorem tipsetContext_interpreted (tipset_key : TipsetKey) (flag : bool)
    (context : TipsetContext) :
  tipsetContext tipset_key flag = success context ->
  (interpreted_present context <-> flag = true)
  /\ (interpreted_present context ->
      exists r, interpret ipld (tipset context) = success r
                /\ interpreted context = Some r
                /\ root (state_tree context) = state_root r)
  /\ (~ interpreted_present context -> rooted_at_parent_state context).
Proof.
  unfold tipsetContext, interpreted_present, rooted_at_parent_state.
  intros H.
  apply bind_success in H. destruct H as (ts & _ & H).
  apply bind_success in H. destruct H as (parent_root & Hroot & H).
  destruct flag.
  - apply bind_success in H. destruct H as (r & Hr & H).
    inversion H; subst; clear H. cbn.
    split; [split; [reflexivity | discriminate] |].
    split; [intros _; exists r; auto |].
    intros Hn. exfalso. apply Hn. discriminate.
  - inversion H; subst; clear H. cbn.
    split; [split; [intros Hn; exfalso; apply Hn; reflexivity
                   | discriminate] |].
    split; [intros Hn; exfalso; apply Hn; reflexivity |].
    intros _. exact Hroot.
Qed.

End HandlerProperties.

(** ** Winning sector selection *)

Section WinningPoStProperties.
Context {PR : Proofs}.

(** Whatever the challenge answers, a successful selection is the whole
    proving set in visiting order. *)
Lemma getSectorsForWinningPoSt_whole_set miner_addr state post_rand sectors :
  getSectorsForWinningPoSt miner_addr state post_rand = success sectors ->
  exists win_type visited,
    visitProvingSet state = success visited
    /\ sectors = map (fun e => {| registered_proof := win_type;
                                  sector := fst e; sealed_cid := snd e |})
                     visited.
Proof.
  unfold getSectorsForWinningPoSt. intros H.
  apply bind_success in H. destruct H as (seal_type & _ & H).
  apply bind_success in H. destruct H as (win_type & _ & H).
  apply bind_success in H. destruct H as (visited & Hv & H).
  exists win_type, visited. split; [exact Hv |].
  destruct visited as [| e rest]; simpl in H.
  - inversion H. reflexivity.
  - apply bind_success in H. destruct H as (indices & _ & H).
    apply bind_success in H. destruct H as (result & _ & H).
    inversion H. reflexivity.
Qed.

End WinningPoStProperties.

Module WinningPoStScenario.
Import Fixture.

#[local] Existing Instance proofs.

(** C2.  With a proving set of two sectors and a challenge that answers
    the single index 1, [getSectorsForWinningPoSt] returns both sectors,
    although the sectors at the challenged indices are just the second
    one. *)
Theorem winning_sectors_not_filtered :
  generateWinningPoStSectorChallenge 13 (getId "t01000") [] 2
  = success [1%N]
  /\ collect_indices [s4; s9] [1%N] = success [s9]
  /\ getSectorsForWinningPoSt "t01000" miner_state [] = success [s4; s9]
  /\ getSectorsForWinningPoSt "t01000" miner_state [] <> success [s9].
Proof.
  repeat split. discriminate.
Qed.

End WinningPoStScenario.

(** ** The retrieval query responder *)

Section QueryResponderProperties.
Context {PIO : PieceIO}.

(** C8, as amended.  The item is available exactly when the locator
    finds the payload and, in case the requested piece differs from the
    payload and the payload is not located in the IPLD store, the parent
    piece reported by the locator is the requested piece; in every other
    case it is unavailable. *)
Theorem getItemStatus_available (payload_cid piece_cid : CID) :
  (getItemStatus payload_cid piece_cid = QueryItemAvailable <->
   exists location parent,
     locatePiecePayload payload_cid = inr (location, parent)
     /\ (piece_cid <> payload_cid -> location <> IPLD_STORE ->
         parent = piece_cid))
  /\ (getItemStatus payload_cid piece_cid <> QueryItemAvailable ->
      getItemStatus payload_cid piece_cid = QueryItemUnavailable).
Proof.
  split.
  - unfold getItemStatus.
    destruct (locatePiecePayload payload_cid) as [e | [location parent]].
    + split; [discriminate | intros (l & p & H & _); discriminate].
    + cbn [fst snd].
      destruct (String.eqb_spec piece_cid payload_cid) as [Heq | Hne];
        cbn [negb andb].
      * split; [| reflexivity]. intros _. exists location, parent.
        split; [reflexivity | intros Hc; contradiction].
      * destruct location; cbn [location_eqb negb].
        -- split; [| reflexivity]. intros _. exists IPLD_STORE, parent.
           split; [reflexivity | intros _ Hc; contradiction].
        -- destruct (String.eqb_spec parent piece_cid) as [Hp | Hp];
             cbn [negb].
           ++ split; [| reflexivity]. intros _.
              exists SEALED_SECTOR, parent. auto.
           ++ split; [discriminate |].
              intros (l & p & H & Himp). inversion H; subst.
              exfalso. apply Hp. apply Himp; [exact Hne | discriminate].
  - destruct (getItemStatus payload_cid piece_cid);
      [intros H; contradiction | reflexivity].
Qed.

End QueryResponderProperties.

Module QueryScenario.
Import Fixture.

#[local] Existing Instance locator.

(** C8, the claim as stated fails for a payload kept in the IPLD store:
    the item is available although the requested piece is neither the
    payload nor the parent piece reported by the locator. *)
Lemma item_in_store_ignores_piece :
  ~ (getItemStatus "payload-in-store" "piece-B" = QueryItemAvailable <->
     exists location parent,
       locatePiecePayload "payload-in-store" = inr (location, parent)
       /\ ("piece-B" <> "payload-in-store" -> parent = "piece-B")).
Proof.
  intros [H _]. destruct (H eq_refl) as (location & parent & Hl & Hp).
  inversion Hl; subst. discriminate Hp. discriminate.
Qed.

(** A payload inside a sealed piece is available under its own parent
    piece and unavailable under another one. *)
Lemma getItemStatus_available_witness :
  getItemStatus "payload-in-piece" "piece-A" = QueryItemAvailable
  /\ getItemStatus "payload-in-piece" "piece-B" = QueryItemUnavailable.
Proof.
  split.
  - apply (proj1 (getItemStatus_available "payload-in-piece" "piece-A")).
    exists SEALED_SECTOR, "piece-A". split; reflexivity.
  - apply (proj2 (getItemStatus_available "payload-in-piece" "piece-B")).
    discriminate.
Defined.

End QueryScenario.

(** ** Walking parent links *)

Lemma to_uint64_small (z : Z) : 0 <= z < 2 ^ 64 -> to_uint64 z = z.
Proof. intros H. unfold to_uint64. apply Z.mod_small. exact H. Qed.

Lemma to_int64_small (z : Z) : - 2 ^ 63 <= z < 2 ^ 63 -> to_int64 z = z.
Proof.
  intros H. unfold to_int64. rewrite Z.mod_small; lia.
Qed.

(** A negative epoch converts to a height no chain reaches. *)
Lemma to_uint64_negative (z : Z) :
  - 2 ^ 63 <= z < 0 -> 2 ^ 63 <= to_uint64 z.
Proof.
  intros H. unfold to_uint64.
  replace z with (z + 2 ^ 64 + (-1) * 2 ^ 64) by lia.
  rewrite Z.mod_add by lia. rewrite Z.mod_small; lia.
Qed.

Section WalkProperties.
Context {P : TipsetPrimitives} {DH : CborDecode BlockHeader} {N : Node}.

(** The loop of [ChainGetTipSetByHeight] passes every tipset above the
    target and stops at the first one that is at the target or whose
    parent is below it. *)
Lemma by_height_loop_stops (h : Z) (r : Tipset) (rest : list Tipset) :
  h <= Tipset_height r ->
  (Tipset_height r = h
   \/ exists p rest', rest = p :: rest' /\ Tipset_height p < h) ->
  forall pre ts ps,
    ts :: ps = pre ++ r :: rest ->
    ancestors ts ps ->
    Forall (fun t => h < Tipset_height t) pre ->
    forall fuel, (List.length pre < fuel)%nat ->
                 by_height_loop fuel h ts = Some (success r).
Proof.
  intros Hr Hstop. induction pre as [| a pre IH];
    intros ts ps Hpath Hanc Hpre fuel Hfuel.
  - simpl in Hpath. inversion Hpath; subst ts ps; clear Hpath.
    destruct fuel as [| fuel]; [simpl in Hfuel; lia |]. simpl.
    destruct (Z.gtb_spec (Tipset_height r) h) as [Hgt | Hle];
      [| reflexivity].
    destruct Hstop as [Heq | (p & rest' & -> & Hp)]; [lia |].
    destruct Hanc as [Hload _]. rewrite Hload.
    destruct (Z.ltb_spec (Tipset_height p) h); [reflexivity | lia].
  - simpl in Hpath. inversion Hpath; subst ts ps; clear Hpath.
    inversion Hpre as [| ? ? Ha Hpre']; subst.
    destruct fuel as [| fuel]; [simpl in Hfuel; lia |]. simpl.
    destruct (Z.gtb_spec (Tipset_height a) h) as [Hgt | Hle]; [| lia].
    destruct (pre ++ r :: rest) as [| p ps'] eqn:Hnext;
      [destruct pre; discriminate |].
    destruct Hanc as [Hload Hanc]. rewrite Hload.
    assert (Hp : h <= Tipset_height p).
    { destruct pre as [| b pre']; simpl in Hnext; inversion Hnext; subst.
      - exact Hr.
      - inversion Hpre'; subst. lia. }
    destruct (Z.ltb_spec (Tipset_height p) h); [lia |].
    apply (IH p ps'); auto. simpl in Hfuel. lia.
Qed.

(** The loop of [getLookbackTipSetForRound] passes every tipset above the
    lookback height and stops at the first one at or below it. *)
Lemma lookback_loop_stops (lookback : Z) (r : Tipset) (rest : list Tipset) :
  Tipset_height r <= to_uint64 lookback ->
  forall pre ts ps,
    ts :: ps = pre ++ r :: rest ->
    ancestors ts ps ->
    Forall (fun t => to_uint64 lookback < Tipset_height t) pre ->
    forall fuel, (List.length pre <= fuel)%nat ->
                 lookback_loop fuel lookback ts = Some (success r).
Proof.
  intros Hr. induction pre as [| a pre IH];
    intros ts ps Hpath Hanc Hpre fuel Hfuel.
  - simpl in Hpath. inversion Hpath; subst ts ps; clear Hpath.
    destruct fuel; simpl;
      destruct (Z.gtb_spec (Tipset_height r) (to_uint64 lookback));
      solve [reflexivity | lia].
  - simpl in Hpath. inversion Hpath; subst ts ps; clear Hpath.
    inversion Hpre as [| ? ? Ha Hpre']; subst.
    destruct fuel as [| fuel]; [simpl in Hfuel; lia |]. simpl.
    destruct (Z.gtb_spec (Tipset_height a) (to_uint64 lookback)); [| lia].
    destruct (pre ++ r :: rest) as [| p ps'] eqn:Hnext;
      [destruct pre; discriminate |].
    destruct Hanc as [Hload Hanc]. rewrite Hload.
    apply (IH p ps'); auto. simpl in Hfuel. lia.
Qed.

(** C3.  For a target height that is a height (not negative):
    [ChainGetTipSetByHeight] answers [TodoError] when the resolved tipset
    is below the target; otherwise it follows parent links through the
    tipsets above the target and returns the last tipset at or above it,
    that is the one at the target height or the one whose parent is
    below the target. *)
Theorem ChainGetTipSetByHeight_spec (height2 : Z) (tipset_key : TipsetKey)
    (context : TipsetContext) :
  0 <= height2 < 2 ^ 63 ->
  tipsetContext tipset_key false = success context ->
  (Tipset_height (tipset context) < height2 ->
   forall fuel,
     ChainGetTipSetByHeight fuel height2 tipset_key = Some (failure ETodo))
  /\ (forall pre r rest ps,
         tipset context :: ps = pre ++ r :: rest ->
         ancestors (tipset context) ps ->
         Forall (fun t => height2 < Tipset_height t) pre ->
         height2 <= Tipset_height r ->
         (Tipset_height r = height2
          \/ exists p rest', rest = p :: rest'
                             /\ Tipset_height p < height2) ->
         forall fuel,
           (List.length pre < fuel)%nat ->
           ChainGetTipSetByHeight fuel height2 tipset_key
           = Some (success r)).
Proof.
  intros Hrange Hctx. unfold ChainGetTipSetByHeight.
  rewrite Hctx, to_uint64_small by lia. split.
  - intros Hlt fuel.
    destruct (Z.ltb_spec (Tipset_height (tipset context)) height2);
      [reflexivity | lia].
  - intros pre r rest ps Hpath Hanc Hpre Hr Hstop fuel Hfuel.
    assert (Hstart : height2 <= Tipset_height (tipset context)).
    { destruct pre as [| a pre]; simpl in Hpath; inversion Hpath; subst.
      - congruence.
      - inversion Hpre; subst. lia. }
    destruct (Z.ltb_spec (Tipset_height (tipset context)) height2); [lia |].
    eapply by_height_loop_stops; eassumption.
Qed.

(** A negative target converts to an unsigned height above every tipset
    whose height fits 63 bits, and is answered with [TodoError]. *)
Lemma ChainGetTipSetByHeight_negative height2 tipset_key context fuel :
  - 2 ^ 63 <= height2 < 0 ->
  tipsetContext tipset_key false = success context ->
  Tipset_height (tipset context) < 2 ^ 63 ->
  ChainGetTipSetByHeight fuel height2 tipset_key = Some (failure ETodo).
Proof.
  intros Hneg Hctx Hh. unfold ChainGetTipSetByHeight. rewrite Hctx.
  pose proof (to_uint64_negative height2 Hneg).
  destruct (Z.ltb_spec (Tipset_height (tipset context)) (to_uint64 height2));
    [reflexivity | lia].
Qed.

(** C5.  With [lookback = max(0, epoch - 10)]: when the parent links
    from the given tipset lead through tipsets above [lookback] to a first
    tipset at or below it, and the interpreter accepts that tipset,
    [getLookbackTipSetForRound] returns that tipset with the state tree
    rooted at the state root the interpreter produced for it. *)
Theorem getLookbackTipSetForRound_first_ancestor (ts : Tipset) (epoch : Z)
    (pre : list Tipset) (r : Tipset) (rest ps : list Tipset)
    (result : InterpreterResult) :
  - 2 ^ 63 + 10 <= epoch < 2 ^ 63 ->
  ts :: ps = pre ++ r :: rest ->
  ancestors ts ps ->
  Forall (fun t => Z.max 0 (epoch - 10) < Tipset_height t) pre ->
  Tipset_height r <= Z.max 0 (epoch - 10) ->
  interpret ipld r = success result ->
  forall fuel,
    (List.length pre <= fuel)%nat ->
    exists context,
      getLookbackTipSetForRound fuel ts epoch = Some (success context)
      /\ tipset context = r
      /\ state_tree context
         = {| store := ipld; root := state_root result |}.
Proof.
  intros Hrange Hpath Hanc Hpre Hr Hint fuel Hfuel.
  unfold getLookbackTipSetForRound, kWinningPoStSectorSetLookback.
  rewrite to_int64_small by lia.
  assert (Hu : to_uint64 (Z.max 0 (epoch - 10)) = Z.max 0 (epoch - 10))
    by (apply to_uint64_small; lia).
  rewrite (lookback_loop_stops (Z.max 0 (epoch - 10)) r rest) with
    (pre := pre) (ps := ps); try assumption.
  - cbn [bind]. rewrite Hint. cbn [bind].
    eexists. split; [reflexivity |]. split; reflexivity.
  - rewrite Hu. exact Hr.
  - rewrite Hu. exact Hpre.
Qed.

(** The context handed out for the lookback never carries the
    interpreter's result in [interpreted]. *)
Lemma getLookbackTipSetForRound_unmarked fuel ts epoch context :
  getLookbackTipSetForRound fuel ts epoch = Some (success context) ->
  interpreted context = None /\ rooted_at_post_state context.
Proof.
  unfold getLookbackTipSetForRound, rooted_at_post_state.
  destruct (lookback_loop fuel _ ts) as [r |]; [| discriminate].
  intros H. inversion H as [H']; clear H.
  apply bind_success in H'. destruct H' as (ts' & _ & H').
  apply bind_success in H'. destruct H' as (result & Hint & H').
  inversion H'; subst; cbn. split; [reflexivity |].
  exists result. auto.
Qed.

End WalkProperties.

(** ** The chain of heights 10, 7, 5, 2 on the fixture *)

Module ChainScenario.
Import Fixture.

#[local] Existing Instance primitives.
#[local] Existing Instance decode_header.
#[local] Existing Instance decode_signed.
#[local] Existing Instance decode_unsigned.
#[local] Existing Instance node.

Lemma head_resolves : tipsetContext head_key false = success head_context.
Proof. reflexivity. Qed.

Lemma chain_links : ancestors t10 [t7; t5; t2].
Proof. repeat split. Qed.

(** Requesting height 6 returns the tipset at height 7, requesting 11 is
    an error. *)
Lemma ChainGetTipSetByHeight_spec_witness :
  ChainGetTipSetByHeight 2 11 head_key = Some (failure ETodo)
  /\ ChainGetTipSetByHeight 2 6 head_key = Some (success t7).
Proof.
  split.
  - apply (proj1 (ChainGetTipSetByHeight_spec 11 head_key head_context
                    ltac:(lia) head_resolves)).
    vm_compute. reflexivity.
  - apply (proj2 (ChainGetTipSetByHeight_spec 6 head_key head_context
                    ltac:(lia) head_resolves)
             [t10] t7 [t5; t2] [t7; t5; t2]).
    + reflexivity.
    + exact chain_links.
    + repeat constructor.
    + vm_compute. discriminate.
    + right. exists t5, [t2]. split; reflexivity.
    + simpl. lia.
Defined.

(** For epoch 15 the lookback height is 5: the walk from height 10 ends
    at the tipset of height 5, rooted at the state after it. *)
Lemma getLookbackTipSetForRound_first_ancestor_witness :
  exists context,
    getLookbackTipSetForRound 2 t10 15 = Some (success context)
    /\ tipset context = t5
    /\ state_tree context
       = {| store := the_store; root := "state-after-h5" |}.
Proof.
  destruct (getLookbackTipSetForRound_first_ancestor t10 15 [t10; t7] t5
              [t2] [t7; t5; t2]
              {| state_root := "state-after-h5";
                 message_receipts := "receipts-after-h5" |})
    with (fuel := 2%nat) as (context & Hrun & Hts & Htree).
  - lia.
  - reflexivity.
  - exact chain_links.
  - repeat constructor.
  - vm_compute. discriminate.
  - reflexivity.
  - simpl. lia.
  - exists context. split; [exact Hrun | split; [exact Hts | exact Htree]].
Defined.

(** C7, the claim as stated fails on the lookback context: its state
    tree is rooted at the interpreter's state root while [interpreted] is
    absent. *)
Lemma lookback_context_unmarked :
  exists context,
    getLookbackTipSetForRound 2 t10 15 = Some (success context)
    /\ ~ rooted_at_parent_state context
    /\ ~ (interpreted_present context <-> rooted_at_post_state context).
Proof.
  eexists. split; [reflexivity |]. split.
  - unfold rooted_at_parent_state. vm_compute. discriminate.
  - intros [_ H]. apply H; [| reflexivity].
    eexists. split; reflexivity.
Qed.

Lemma tipsetContext_interpreted_witness :
  exists context,
    tipsetContext head_key true = success context
    /\ (interpreted_present context <-> true = true)
    /\ (interpreted_present context ->
        exists r, interpret ipld (tipset context) = success r
                  /\ interpreted context = Some r
                  /\ root (state_tree context) = state_root r)
    /\ (~ interpreted_present context -> rooted_at_parent_state context).
Proof.
  eexists. split; [reflexivity |].
  apply (tipsetContext_interpreted head_key true). reflexivity.
Defined.

(** Method 0 succeeds, method 16 leaves with exit code 16, any other
    method fails outside the VM; an unknown key fails in the store. *)
Lemma StateCall_receipt_witness :
  StateCall unsigned_msg head_key
  = success {| invoc_message := unsigned_msg;
               receipt := {| exit_code := kOk; return_value := [x2a];
                             gas_used := 0 |} |}
  /\ StateCall inner_msg head_key
     = success {| invoc_message := inner_msg;
                  receipt := {| exit_code := 16; return_value := [];
                                gas_used := 0 |} |}
  /\ StateCall {| to := "t01"; from := "t02"; nonce := 0; method := 5;
                  params := [] |} head_key
     = failure (EOther "transport")
  /\ StateCall unsigned_msg {| hash := []; cids := ["blk-unknown"] |}
     = failure (EOther "not found").
Proof.
  split; [| split; [| split]].
  - apply (proj1 (StateCall_receipt unsigned_msg head_key) head_context);
      reflexivity.
  - apply (proj1 (proj2 (StateCall_receipt inner_msg head_key))
             head_context 16); reflexivity.
  - apply (proj1 (proj2 (proj2 (StateCall_receipt _ head_key)))
             head_context); reflexivity.
  - apply (proj2 (proj2 (proj2 (StateCall_receipt unsigned_msg _))));
      reflexivity.
Defined.

Lemma ChainGetMessage_signed_first_witness :
  ChainGetMessage "msg-signed" = success inner_msg
  /\ ChainGetMessage "msg-unsigned" = success unsigned_msg
  /\ ((exists e', getCbor (T := SignedMessage) ipld "raw" = failure e')
      /\ getCbor (T := UnsignedMessage) ipld "raw"
         = failure (EOther "not an unsigned message")).
Proof.
  split; [| split].
  - apply (proj1 (ChainGetMessage_signed_first "msg-signed") signed_msg).
    reflexivity.
  - rewrite (proj1 (proj2 (ChainGetMessage_signed_first "msg-unsigned"))
               (EOther "not a signed message")); reflexivity.
  - apply (proj2 (proj2 (ChainGetMessage_signed_first "raw"))).
    reflexivity.
Defined.

End ChainScenario.

(** * Further properties *)

(** ** Created tipsets *)

Section CreatedTipsets.
Context {P : TipsetPrimitives}.

Lemma getTipset_key c t c' clear :
  getTipset c clear = success (t, c') ->
  blks t = blks_ c
  /\ ((blks_ c = [] /\ t = Tipset_default)
      \/ (blks_ c <> [] /\ cids (key t) = cids_ c
          /\ TipsetKey_hash (cids_ c) = success (hash (key t)))).
Proof.
  unfold getTipset. destruct (blks_ c) as [| b rest] eqn:Hb.
  - intros H. inversion H; subst. split; [reflexivity |]. left. auto.
  - intros H. apply bind_success in H. destruct H as (k & Hk & H).
    inversion H; subst; clear H. split; [reflexivity |]. right.
    split; [discriminate |].
    unfold TipsetKey_create in Hk.
    destruct (TipsetKey_hash (cids_ c)) as [h | e | w]; simpl in Hk;
      try discriminate.
    inversion Hk; subst. simpl. auto.
Qed.

(** X1.  A tipset returned by [create] holds exactly the input headers,
    all of one height and one parent list; its key lists the cid of each
    block at the block's index, and the key's hash is the hash of that cid
    list.  From the empty list [create] returns the default tipset. *)
Theorem created_tipset_invariants (blocks : list BlockHeader) (t : Tipset) :
  create blocks = success t ->
  Permutation (blks t) blocks
  /\ uniform (blks t)
  /\ Forall2 (fun b cid => getCidOfCbor b = success cid)
             (blks t) (cids (key t))
  /\ (blocks <> [] ->
      TipsetKey_hash (cids (key t)) = success (hash (key t)))
  /\ (blocks = [] -> t = Tipset_default).
Proof.
  intros H. destruct (create_blocks _ _ H) as (Hp & Hu & Hin).
  split; [exact Hp | split; [exact Hu | split; [exact Hin |]]].
  unfold create in H.
  apply bind_success in H. destruct H as (c & Hloop & H).
  apply bind_success in H. destruct H as ([t' c'] & Hget & H).
  inversion H; subst; clear H. cbn [fst] in *.
  destruct (getTipset_key _ _ _ _ Hget)
    as (Hb & [(Hnil & Hdef) | (Hne & Hc & Hh)]).
  - split; [| intros _; exact Hdef].
    intros Hblocks. exfalso. apply Hblocks.
    rewrite Hb, Hnil in Hp. apply Permutation_nil in Hp. exact Hp.
  - split; [intros _; rewrite Hc; exact Hh |].
    intros Hblocks. subst blocks. exfalso. apply Hne.
    rewrite <- Hb. apply Permutation_nil. symmetry. exact Hp.
Qed.

(** X2.  The errors [create] returns are the three of [canExpandTipset],
    the ticket collision, or an error of the cid codec on one of the
    headers; a failure to hash the key is not returned but thrown. *)
Theorem create_errors (blocks : list BlockHeader) :
  (forall e, create blocks = failure e ->
     e = ETipset TICKET_HAS_NO_VALUE \/ e = ETipset MISMATCHING_HEIGHTS
     \/ e = ETipset MISMATCHING_PARENTS \/ e = ETipset TICKETS_COLLISION
     \/ exists b, In b blocks /\ getCidOfCbor b = failure e)
  /\ (forall c e,
        create_loop TipsetCreator_new blocks = success c ->
        blks_ c <> [] ->
        TipsetKey_hash (cids_ c) = failure e ->
        create blocks = abort (OutcomeExcept e)).
Proof.
  split.
  - intros e H. apply create_failure. exact H.
  - intros c e Hloop Hne Hh. unfold create. rewrite Hloop. cbn [bind].
    unfold getTipset. destruct (blks_ c); [contradiction |].
    unfold TipsetKey_create. rewrite Hh. reflexivity.
Qed.

(** X3.  A second header is checked against the first in this order:
    ticket present, same height, same parents, and then its ticket must not
    compare equal to the first one's. *)
Theorem create_second_header_checks (b0 hdr : BlockHeader)
    (rest : list BlockHeader) (c0 : CID) :
  getCidOfCbor b0 = success c0 ->
  (ticket hdr = None ->
   create (b0 :: hdr :: rest) = failure (ETipset TICKET_HAS_NO_VALUE))
  /\ (ticket hdr <> None -> height hdr <> height b0 ->
      create (b0 :: hdr :: rest) = failure (ETipset MISMATCHING_HEIGHTS))
  /\ (ticket hdr <> None -> height hdr = height b0 ->
      parents hdr <> parents b0 ->
      create (b0 :: hdr :: rest) = failure (ETipset MISMATCHING_PARENTS))
  /\ (forall t t0 c,
        ticket hdr = Some t -> ticket b0 = Some t0 ->
        height hdr = height b0 -> parents hdr = parents b0 ->
        getCidOfCbor hdr = success c ->
        compare t t0 = 0 ->
        create (b0 :: hdr :: rest) = failure (ETipset TICKETS_COLLISION)).
Proof.
  intros Hc0.
  unfold create, create_loop, expandTipset, expandTipset_cid, canExpandTipset.
  cbn. rewrite Hc0. cbn.
  repeat split.
  - intros Ht. rewrite Ht. reflexivity.
  - intros Ht Hh. destruct (ticket hdr); [| contradiction].
    apply Z.eqb_neq in Hh. rewrite Hh. reflexivity.
  - intros Ht Hh Hp. destruct (ticket hdr); [| contradiction].
    rewrite Hh, Z.eqb_refl. cbn.
    destruct (cids_eq_dec (parents hdr) (parents b0)); [contradiction |].
    reflexivity.
  - intros t t0 c Ht Ht0 Hh Hp Hc Hcmp.
    rewrite Ht, Ht0, Hc, Hh, Z.eqb_refl. cbn.
    destruct (cids_eq_dec (parents hdr) (parents b0)); [| contradiction].
    cbn. rewrite Hcmp. reflexivity.
Qed.

(** X4.  A single header always makes a tipset, with or without a ticket
    (the genesis block has none), as soon as its cid and the key hash can
    be computed. *)
Theorem create_single (b : BlockHeader) (c : CID) (h : TipsetHash) :
  getCidOfCbor b = success c ->
  TipsetKey_hash [c] = success h ->
  create [b] = success {| key := {| hash := h; cids := [c] |}; blks := [b] |}.
Proof.
  intros Hc Hh. unfold create, create_loop, expandTipset. cbn.
  rewrite Hc. cbn. unfold getTipset, TipsetKey_create. cbn.
  rewrite Hh. reflexivity.
Qed.

(** X5.  The scan stops at the first block whose ticket is smaller than the
    new one and does not look at the blocks behind it: a third header whose
    ticket is larger than the first block's is accepted and put in front,
    whatever its ticket compares to against the second block, equal
    included. *)
Theorem create_third_header_unchecked (b1 b2 b3 : BlockHeader)
    (t1 t2 t3 : Ticket) (c1 c2 c3 : CID) (h : TipsetHash) :
  ticket b1 = Some t1 -> ticket b2 = Some t2 -> ticket b3 = Some t3 ->
  height b2 = height b1 -> parents b2 = parents b1 ->
  height b3 = height b1 -> parents b3 = parents b1 ->
  getCidOfCbor b1 = success c1 -> getCidOfCbor b2 = success c2 ->
  getCidOfCbor b3 = success c3 ->
  TipsetKey_hash [c3; c1; c2] = success h ->
  0 < compare t2 t1 -> 0 < compare t3 t1 ->
  create [b1; b2; b3]
  = success {| key := {| hash := h; cids := [c3; c1; c2] |};
               blks := [b3; b1; b2] |}.
Proof.
  intros Ht1 Ht2 Ht3 Hh2 Hp2 Hh3 Hp3 Hc1 Hc2 Hc3 Hk Hgt2 Hgt3.
  unfold create, create_loop, expandTipset, expandTipset_cid, canExpandTipset.
  cbn. rewrite Hc1. cbn.
  rewrite Ht2, Ht1, Hc2, Hh2, Z.eqb_refl. cbn.
  destruct (cids_eq_dec (parents b2) (parents b1)); [| contradiction].
  cbn.
  destruct (Z.eqb_spec (compare t2 t1) 0); [lia |].
  destruct (Z.ltb_spec (compare t2 t1) 0); [lia |].
  cbn. rewrite Ht3, Hc3, Hh3, Z.eqb_refl. cbn.
  destruct (cids_eq_dec (parents b3) (parents b1)); [| contradiction].
  cbn. rewrite Ht1. cbn.
  destruct (Z.eqb_spec (compare t3 t1) 0); [lia |].
  destruct (Z.ltb_spec (compare t3 t1) 0); [lia |].
  cbn. unfold getTipset, TipsetKey_create. cbn. rewrite Hk. reflexivity.
Qed.

Lemma create_available_loop_present (bs : list BlockHeader) :
  forall c, create_available_loop c (map Some bs) = create_loop c bs.
Proof.
  induction bs as [| b bs IH]; simpl; intros c; [reflexivity |].
  destruct (canExpandTipset c b); simpl; try reflexivity.
  destruct (expandTipset c b); simpl; try reflexivity. apply IH.
Qed.

(** X6.  On a list whose entries are all present, [create(hash, blocks)]
    is [create(headers)] followed by the comparison of the key's hash with
    the expected one, which turns a mismatch into [BlockOrderFailure]; an
    absent first entry gives [NoBlocks]; and the empty list is only accepted
    for the hash of the default key. *)
Theorem create_hash_spec (h : TipsetHash) (bs : list BlockHeader) :
  create_hash h (map Some bs)
  = match create bs with
    | success t =>
        if hash_eq_dec (hash (key t)) h then success t
        else failure (ETipset BLOCK_ORDER_FAILURE)
    | failure e => failure e
    | abort w => abort w
    end
  /\ (forall rest, create_hash h (None :: rest) = failure (ETipset NO_BLOCKS))
  /\ (create_hash h [] = success Tipset_default <-> emptyTipsetHash = h).
Proof.
  split; [| split].
  - unfold create_hash, create. rewrite create_available_loop_present.
    destruct (create_loop TipsetCreator_new bs) as [c | e | w];
      cbn [bind]; try reflexivity.
    destruct (getTipset c true) as [[t c'] | e | w]; cbn [bind fst];
      reflexivity.
  - reflexivity.
  - change (create_hash h [])
      with (if hash_eq_dec emptyTipsetHash h then success Tipset_default
            else failure (ETipset BLOCK_ORDER_FAILURE)).
    destruct (hash_eq_dec emptyTipsetHash h) as [Heq | Hne].
    + split; [intros _; exact Heq | intros _; reflexivity].
    + split; [discriminate | intros Heq; contradiction].
Qed.

Lemma contains_spec (t : Tipset) (cid : CID) :
  contains t cid = true <-> In cid (cids (key t)).
Proof.
  unfold contains. rewrite existsb_exists. split.
  - intros (c & Hin & Hc). destruct (CID_eq_dec c cid); [subst; exact Hin |].
    discriminate.
  - intros Hin. exists cid. split; [exact Hin |].
    destruct (CID_eq_dec cid cid); [reflexivity | contradiction].
Qed.

(** X7.  On a tipset made by [create], [height()] is the height of every
    input header, [getParents()] is the key of every input header's parent
    list, [getParentWeight()] is the parent weight of the header of
    [getMinTicketBlock()], and [contains] holds exactly for the cids of the
    input headers. *)
Theorem created_tipset_accessors (blocks : list BlockHeader) (t : Tipset) :
  create blocks = success t ->
  (forall b, In b blocks ->
     Tipset_height t = height b
     /\ getParents t = TipsetKey_create (parents b))
  /\ (forall first, getMinTicketBlock t = success first ->
        In first blocks /\ getParentWeight t = parent_weight first)
  /\ (forall cid, contains t cid = true <->
                  exists b, In b blocks /\ getCidOfCbor b = success cid).
Proof.
  intros H. destruct (create_blocks _ _ H) as (Hp & Hu & Hin).
  split; [| split].
  - intros b Hb. apply (Permutation_in _ (Permutation_sym Hp)) in Hb.
    unfold Tipset_height, getParents.
    destruct (blks t) as [| first rest]; [destruct Hb |].
    destruct (Hu first b (or_introl eq_refl) Hb) as [Hh Hpar].
    rewrite Hh, Hpar. auto.
  - intros first Hfirst. unfold getMinTicketBlock, getParentWeight in *.
    destruct (blks t) as [| b rest]; [discriminate |].
    inversion Hfirst; subst. split; [| reflexivity].
    apply (Permutation_in _ Hp). left. reflexivity.
  - intros cid. rewrite contains_spec. split.
    + intros Hc.
      assert (Hex : exists b, In b (blks t) /\ getCidOfCbor b = success cid).
      { clear Hp Hu H. induction Hin as [| b c bs cs Hbc Hin IH];
          [destruct Hc |].
        destruct Hc as [<- | Hc].
        - exists b. split; [left; reflexivity | exact Hbc].
        - destruct (IH Hc) as (b' & Hb' & Hcid).
          exists b'. split; [right; exact Hb' | exact Hcid]. }
      destruct Hex as (b & Hb & Hcid). exists b. split; [| exact Hcid].
      apply (Permutation_in _ Hp). exact Hb.
    + intros (b & Hb & Hcid).
      apply (Permutation_in _ (Permutation_sym Hp)) in Hb.
      clear Hp Hu H. induction Hin as [| b' c bs cs Hbc Hin IH];
        [destruct Hb |].
      destruct Hb as [<- | Hb].
      * left. congruence.
      * right. apply IH. exact Hb.
Qed.

Lemma min_timestamp_spec (rest : list BlockHeader) :
  forall first,
    min_timestamp first rest <= first
    /\ (forall b, In b rest -> min_timestamp first rest <= timestamp b)
    /\ (min_timestamp first rest = first
        \/ exists b, In b rest /\ min_timestamp first rest = timestamp b).
Proof.
  induction rest as [| b rest IH]; simpl; intros first.
  - split; [lia | split; [intros b [] | left; reflexivity]].
  - destruct (Z.ltb_spec (timestamp b) first) as [Hlt | Hge].
    + destruct (IH (timestamp b)) as (Hle & Hall & Hex).
      split; [lia | split].
      * intros b' [<- | Hb']; [exact Hle | apply Hall; exact Hb'].
      * right. destruct Hex as [Heq | (b' & Hb' & Heq)].
        -- exists b. auto.
        -- exists b'. auto.
    + destruct (IH first) as (Hle & Hall & Hex).
      split; [exact Hle | split].
      * intros b' [<- | Hb']; [lia | apply Hall; exact Hb'].
      * destruct Hex as [Heq | (b' & Hb' & Heq)]; [left; exact Heq |].
        right. exists b'. auto.
Qed.

(** X8.  On a tipset with blocks, [getMinTimestamp()] is the timestamp of
    one of the blocks and not above the timestamp of any of them. *)
Theorem getMinTimestamp_is_minimum (t : Tipset) :
  blks t <> [] ->
  (forall b, In b (blks t) -> getMinTimestamp t <= timestamp b)
  /\ (exists b, In b (blks t) /\ getMinTimestamp t = timestamp b).
Proof.
  unfold getMinTimestamp. destruct (blks t) as [| first rest];
    [intros H; contradiction | intros _].
  destruct (min_timestamp_spec rest (timestamp first)) as (Hle & Hall & Hex).
  split.
  - intros b [<- | Hb]; [exact Hle | apply Hall; exact Hb].
  - destruct Hex as [Heq | (b & Hb & Heq)].
    + exists first. split; [left; reflexivity | exact Heq].
    + exists b. split; [right; exact Hb | exact Heq].
Qed.

End CreatedTipsets.

(** ** Loading and decoding tipsets *)

Section LoadProperties.
Context {P : TipsetPrimitives} {DH : CborDecode BlockHeader}
        {DC : CborDecode TipsetDecodeCandidate} {N : Node}.

Lemma load_blocks_spec (store_ : Ipld) (cs : list CID) :
  forall bs : list BlockHeader,
    load_blocks store_ cs = success bs <->
    Forall2 (fun cid b => getCbor store_ cid = success b) cs bs.
Proof.
  induction cs as [| cid cs IH]; simpl; intros bs.
  - split.
    + intros H. inversion H. constructor.
    + intros H. inversion H. reflexivity.
  - split.
    + intros H. apply bind_success in H. destruct H as (b & Hb & H).
      apply bind_success in H. destruct H as (bs' & Hbs & H).
      inversion H; subst. constructor; [exact Hb | apply IH; exact Hbs].
    + intros H. inversion H as [| ? b ? bs' Hb Hbs]; subst.
      rewrite Hb. cbn [bind]. apply IH in Hbs. rewrite Hbs. reflexivity.
Qed.

Lemma load_blocks_missing (store_ : Ipld) (pre : list CID) :
  forall (bs : list BlockHeader) cid rest e,
    Forall2 (fun c b => getCbor store_ c = success b) pre bs ->
    getCbor (T := BlockHeader) store_ cid = failure e ->
    load_blocks store_ (pre ++ cid :: rest) = failure e.
Proof.
  induction pre as [| c pre IH]; cbn [load_blocks app];
    intros bs cid rest e Hpre Hmiss.
  - rewrite Hmiss. reflexivity.
  - inversion Hpre as [| ? b ? bs' Hb Hbs]; subst.
    rewrite Hb. cbn [bind]. rewrite (IH bs' cid rest e Hbs Hmiss). reflexivity.
Qed.

(** X9.  [Tipset::load] succeeds exactly when every cid resolves to a
    header and [create] accepts the headers in the order of the cids; the
    first cid that does not resolve fails the load with the error of the
    store or codec, whatever the headers before it are; and from an empty
    cid list [load], and with it [ChainGetTipSet], gives the default, empty
    tipset, not the heaviest one. *)
Theorem load_spec (store_ : Ipld) :
  (forall cs t,
      load store_ cs = success t <->
      exists bs : list BlockHeader,
        Forall2 (fun cid b => getCbor store_ cid = success b) cs bs
        /\ create bs = success t)
  /\ (forall pre (bs : list BlockHeader) cid rest e,
         Forall2 (fun c b => getCbor store_ c = success b) pre bs ->
         getCbor (T := BlockHeader) store_ cid = failure e ->
         load store_ (pre ++ cid :: rest) = failure e)
  /\ (forall h, ChainGetTipSet {| hash := h; cids := [] |}
                = success Tipset_default).
Proof.
  split; [| split].
  - intros cs t. unfold load. split.
    + intros H. apply bind_success in H. destruct H as (bs & Hbs & H).
      exists bs. split; [apply load_blocks_spec; exact Hbs | exact H].
    + intros (bs & Hbs & H). apply load_blocks_spec in Hbs.
      rewrite Hbs. exact H.
  - intros pre bs cid rest e Hpre Hmiss. unfold load.
    rewrite (load_blocks_missing store_ pre bs cid rest e Hpre Hmiss).
    reflexivity.
  - intros h. reflexivity.
Qed.

(** X10.  [decode<Tipset>]: an encoding without blocks but with a height
    other than 0 is refused with [MismatchingHeights]; a decoded tipset is
    what [create] makes of the encoded blocks, and its key lists exactly the
    encoded cids, each the cid of the block at its index; with blocks
    present the encoded height is not looked at. *)
Theorem decode_Tipset_spec (input : Buffer) (cand : TipsetDecodeCandidate) :
  decode (T := TipsetDecodeCandidate) input = success cand ->
  (candidate_blks cand = [] -> candidate_height cand <> 0 ->
   decode_Tipset input = failure (ETipset MISMATCHING_HEIGHTS))
  /\ (forall t,
        decode_Tipset input = success t ->
        create (candidate_blks cand) = success t
        /\ cids (key t) = candidate_cids cand
        /\ Forall2 (fun b cid => getCidOfCbor b = success cid)
                   (blks t) (candidate_cids cand)
        /\ (candidate_blks cand = [] ->
            candidate_height cand = 0 /\ candidate_cids cand = []))
  /\ (forall t,
        candidate_blks cand <> [] ->
        create (candidate_blks cand) = success t ->
        decode_Tipset input
        = if cids_eq_dec (cids (key t)) (candidate_cids cand)
          then success t
          else failure (ETipset BLOCK_ORDER_FAILURE)).
Proof.
  intros Hdec. unfold decode_Tipset. rewrite Hdec. cbn [bind].
  split; [| split].
  - intros Hb Hh. rewrite Hb. apply Z.eqb_neq in Hh. rewrite Hh. reflexivity.
  - intros t H.
    destruct (Nat.eqb (List.length (candidate_blks cand)) 0
              && negb (candidate_height cand =? 0)) eqn:Hguard;
      [discriminate |].
    apply bind_success in H. destruct H as (ts & Hcreate & H).
    destruct (cids_eq_dec (cids (key ts)) (candidate_cids cand)) as [Hc | Hc];
      [| discriminate].
    inversion H; subst ts; clear H.
    destruct (create_blocks _ _ Hcreate) as (Hp & _ & Hin).
    split; [exact Hcreate | split; [exact Hc | split]].
    + rewrite <- Hc. exact Hin.
    + intros Hb. rewrite Hb in Hguard. cbn in Hguard.
      split.
      * destruct (Z.eqb_spec (candidate_height cand) 0); [assumption |].
        discriminate.
      * rewrite Hb in Hcreate. inversion Hcreate; subst t.
        rewrite <- Hc. reflexivity.
  - intros t Hb Hcreate.
    destruct (candidate_blks cand) as [| b rest] eqn:Hblks;
      [contradiction |].
    cbn [List.length Nat.eqb andb]. rewrite Hcreate. reflexivity.
Qed.

End LoadProperties.

(** ** The message visitor *)

Lemma bind_assoc {A B C : Type} (r : outcome A) (f : A -> outcome B)
    (g : B -> outcome C) :
  bind (bind r f) g = bind r (fun a => bind (f a) g).
Proof. destruct r; reflexivity. Qed.

Lemma first_occurrences_NoDup (msgs : list (bool * CID)) :
  forall seen,
    NoDup (map snd (first_occurrences seen msgs))
    /\ (forall m, In m (first_occurrences seen msgs) -> ~ In (snd m) seen).
Proof.
  induction msgs as [| m msgs IH]; simpl; intros seen.
  - split; [constructor | intros m []].
  - destruct (in_dec CID_eq_dec (snd m) seen) as [Hin | Hnew]; [apply IH |].
    destruct (IH (snd m :: seen)) as [Hnd Hfresh]. split.
    + simpl. constructor; [| exact Hnd].
      intros Hc. apply in_map_iff in Hc. destruct Hc as (m' & Heq & Hm').
      apply (Hfresh m' Hm'). left. symmetry. exact Heq.
    + intros m' [<- | Hm']; [exact Hnew |].
      intros Hc. apply (Hfresh m' Hm'). right. exact Hc.
Qed.

Lemma first_occurrences_In (msgs : list (bool * CID)) :
  forall seen cid,
    In cid (map snd (first_occurrences seen msgs)) <->
    In cid (map snd msgs) /\ ~ In cid seen.
Proof.
  induction msgs as [| m msgs IH]; simpl; intros seen cid.
  - tauto.
  - destruct (in_dec CID_eq_dec (snd m) seen) as [Hin | Hnew].
    + rewrite IH. split; [tauto |].
      intros [[Heq | Hm] Hs]; [subst; contradiction | tauto].
    + simpl. rewrite IH. simpl. split.
      * intros [Heq | [Hm Hs]]; [subst; tauto | tauto].
      * intros [[Heq | Hm] Hs]; [tauto |].
        destruct (CID_eq_dec (snd m) cid); tauto.
Qed.

Section VisitorProperties.
Context {AR : CidArrays} {DM : CborDecode MsgMeta}.
Variable U : Type.
Variable visitor : Visitor U.

Lemma first_occurrences_app (l1 l2 : list (bool * CID)) :
  forall seen,
    first_occurrences seen (l1 ++ l2)
    = first_occurrences seen l1
      ++ first_occurrences (seen_after seen l1) l2.
Proof.
  induction l1 as [| m l1 IH]; simpl; intros seen; [reflexivity |].
  destruct (in_dec CID_eq_dec (snd m) seen); [apply IH |].
  simpl. rewrite IH. reflexivity.
Qed.

Lemma seen_after_app (l1 l2 : list (bool * CID)) :
  forall seen,
    seen_after seen (l1 ++ l2) = seen_after (seen_after seen l1) l2.
Proof.
  induction l1 as [| m l1 IH]; simpl; intros seen; [reflexivity |].
  destruct (in_dec CID_eq_dec (snd m) seen); apply IH.
Qed.

Lemma seen_after_length (l : list (bool * CID)) :
  forall seen,
    List.length (seen_after seen l)
    = (List.length seen + List.length (first_occurrences seen l))%nat.
Proof.
  induction l as [| m l IH]; simpl; intros seen; [lia |].
  destruct (in_dec CID_eq_dec (snd m) seen); [apply IH |].
  rewrite IH. simpl. lia.
Qed.

Lemma run_calls_app (c1 c2 : list (bool * CID)) :
  forall u index,
    run_calls visitor u index (c1 ++ c2)
    = TRY u' <- run_calls visitor u index c1;
      run_calls visitor u' (index + List.length c1)%nat c2.
Proof.
  induction c1 as [| m c1 IH]; simpl; intros u index.
  - rewrite Nat.add_0_r. reflexivity.
  - rewrite bind_assoc.
    destruct (visitor u index (fst m) (snd m)) as [u' | e | w];
      cbn [bind]; try reflexivity.
    rewrite IH. replace (S index + List.length c1)%nat
      with (index + S (List.length c1))%nat by lia.
    reflexivity.
Qed.

(** One array: the visitor is run on the entries not seen yet. *)
Lemma visit_entries_onMessage (is_bls : bool) (entries : list CID) :
  forall seen u,
    visit_entries (onMessage visitor is_bls) (seen, u) entries
    = TRY u' <- run_calls visitor u (List.length seen)
                  (first_occurrences seen (map (pair is_bls) entries));
      success (seen_after seen (map (pair is_bls) entries), u').
Proof.
  induction entries as [| cid entries IH]; intros seen u; [reflexivity |].
  cbn [visit_entries map first_occurrences seen_after snd fst].
  unfold onMessage at 1. cbn [fst snd].
  destruct (in_dec CID_eq_dec cid seen) as [Hin | Hnew].
  - cbn [bind]. apply IH.
  - cbn [run_calls fst snd List.length].
    replace (S (List.length seen) - 1)%nat with (List.length seen) by lia.
    rewrite !bind_assoc.
    destruct (visitor u (List.length seen) is_bls cid) as [u' | e | w];
      cbn [bind]; try reflexivity.
    apply IH.
Qed.

Lemma Array_visit_onMessage (store_ : Ipld) (array_root : CID)
    (is_bls : bool) (seen : list CID) (u : U) :
  snd (array_traversal store_ array_root) = None ->
  Array_visit store_ array_root (onMessage visitor is_bls) (seen, u)
  = TRY u' <- run_calls visitor u (List.length seen)
                (first_occurrences seen
                   (map (pair is_bls)
                        (fst (array_traversal store_ array_root))));
    success (seen_after seen
               (map (pair is_bls) (fst (array_traversal store_ array_root))),
             u').
Proof.
  intros Hintact. unfold Array_visit. rewrite Hintact.
  rewrite visit_entries_onMessage.
  destruct (run_calls visitor u (List.length seen) _); reflexivity.
Qed.

Lemma MessageVisitor_visit_calls (store_ : Ipld) (block : BlockHeader)
    (meta : MsgMeta) (seen : list CID) (u : U) :
  getCbor store_ (messages block) = success meta ->
  arrays_intact store_ meta ->
  MessageVisitor_visit store_ visitor (seen, u) block
  = TRY u' <- run_calls visitor u (List.length seen)
                (first_occurrences seen (block_messages store_ meta));
    success (seen_after seen (block_messages store_ meta), u').
Proof.
  intros Hmeta [Hbls Hsecp]. unfold MessageVisitor_visit, block_messages.
  rewrite Hmeta. cbn [bind].
  rewrite (Array_visit_onMessage _ _ _ _ _ Hbls).
  rewrite first_occurrences_app, seen_after_app, run_calls_app.
  rewrite !bind_assoc.
  destruct (run_calls visitor u (List.length seen) _) as [u1 | e | w];
    cbn [bind]; try reflexivity.
  rewrite (Array_visit_onMessage _ _ _ _ _ Hsecp).
  rewrite seen_after_length. rewrite !bind_assoc.
  destruct (run_calls visitor u1 _ _) as [u2 | e | w]; reflexivity.
Qed.

Lemma visit_blocks_calls (store_ : Ipld) (blocks : list BlockHeader) :
  forall metas seen u,
    Forall2 (fun b m => getCbor store_ (messages b) = success m
                        /\ arrays_intact store_ m) blocks metas ->
    visit_blocks store_ visitor (seen, u) blocks
    = TRY u' <- run_calls visitor u (List.length seen)
                  (first_occurrences seen
                     (flat_map (block_messages store_) metas));
      success (seen_after seen (flat_map (block_messages store_) metas), u').
Proof.
  induction blocks as [| b blocks IH]; intros metas seen u H;
    inversion H as [| ? m ? metas' [Hm Hi] Hrest]; subst; [reflexivity |].
  cbn [visit_blocks flat_map].
  rewrite (MessageVisitor_visit_calls _ _ _ _ _ Hm Hi).
  rewrite first_occurrences_app, seen_after_app, run_calls_app.
  rewrite !bind_assoc.
  destruct (run_calls visitor u (List.length seen) _) as [u1 | e | w];
    cbn [bind]; try reflexivity.
  rewrite (IH metas' _ u1 Hrest). rewrite seen_after_length. reflexivity.
Qed.

(** X11.  When the message metas of all blocks load and their arrays can
    be traversed, [visitMessages] runs the visitor once for each distinct
    message cid, at its first occurrence in the order block by block, BLS
    array before secp array, and numbers the calls 0, 1, 2, ... *)
Theorem visitMessages_calls (store_ : Ipld) (u : U) (t : Tipset)
    (metas : list MsgMeta) :
  Forall2 (fun b m => getCbor store_ (messages b) = success m
                      /\ arrays_intact store_ m) (blks t) metas ->
  let all := flat_map (block_messages store_) metas in
  let calls := first_occurrences [] all in
  visitMessages store_ visitor u t = run_calls visitor u 0 calls
  /\ NoDup (map snd calls)
  /\ (forall cid, In cid (map snd calls) <-> In cid (map snd all)).
Proof.
  intros H all calls. split; [| split].
  - unfold visitMessages.
    rewrite (visit_blocks_calls _ _ _ _ _ H). rewrite bind_assoc.
    cbn [List.length].
    destruct (run_calls visitor u 0 _); reflexivity.
  - apply first_occurrences_NoDup.
  - intros cid. unfold calls. rewrite first_occurrences_In. simpl. tauto.
Qed.

End VisitorProperties.

(** ** Paths of [ChainGetNode] *)

Lemma split_slash_nonempty (path : string) : split_slash path <> [].
Proof.
  destruct path as [| c rest]; simpl; [discriminate |].
  destruct (Ascii.eqb c "/"); [discriminate |].
  destruct (split_slash rest); discriminate.
Qed.

(** Joining the tokens with slashes gives the path back. *)
Lemma split_slash_concat (path : string) :
  String.concat "/" (split_slash path) = path.
Proof.
  induction path as [| c rest IH]; [reflexivity |].
  cbn [split_slash].
  destruct (Ascii.eqb_spec c "/"%char) as [-> | Hc].
  - destruct (split_slash rest) as [| tok toks] eqn:Hs;
      [destruct (split_slash_nonempty rest Hs) |].
    change (String.concat "/" ("" :: tok :: toks))
      with (String "/" (String.concat "/" (tok :: toks))).
    rewrite IH. reflexivity.
  - destruct (split_slash rest) as [| tok toks] eqn:Hs;
      [destruct (split_slash_nonempty rest Hs) |].
    rewrite <- IH. destruct toks; reflexivity.
Qed.

Section NodePathProperties.
Context {P : TipsetPrimitives} {DH : CborDecode BlockHeader} {N : Node}
        {IpldObject : Type} {NP : NodePaths IpldObject}.

(** X12.  [ChainGetNode] answers [TodoError] for every path that does not
    start with "/ipfs/"; for a path "/ipfs/" followed by [tail] it parses
    the first token of [tail] as the root cid and resolves the remaining
    tokens below it. *)
Theorem ChainGetNode_prefix (path : string) :
  (String.prefix "/ipfs/" path = false ->
   ChainGetNode path = failure ETodo)
  /\ (forall tail,
        path = String.append "/ipfs/" tail ->
        exists root_str rest,
          split_slash tail = root_str :: rest
          /\ ChainGetNode path
             = TRY node_root <- CID_fromString root_str;
               getNode ipld node_root rest).
Proof.
  split.
  - intros Hprefix. unfold ChainGetNode.
    pose proof (split_slash_concat path) as Hjoin.
    destruct (split_slash path) as [| p0 [| p1 [| p2 rest]]];
      try reflexivity.
    destruct (String.eqb_spec p0 "") as [-> | H0]; [| reflexivity].
    destruct (String.eqb_spec p1 "ipfs") as [-> | H1]; [| reflexivity].
    exfalso. rewrite <- Hjoin in Hprefix.
    change (String.concat "/" ("" :: "ipfs" :: p2 :: rest))
      with (String.append "/ipfs/" (String.concat "/" (p2 :: rest)))
      in Hprefix.
    cbn in Hprefix. destruct rest; destruct p2; cbn in Hprefix; discriminate.
  - intros tail ->. unfold ChainGetNode. cbn.
    destruct (split_slash tail) as [| root_str rest] eqn:Hs;
      [destruct (split_slash_nonempty tail Hs) |].
    exists root_str, rest. split; reflexivity.
Qed.

End NodePathProperties.

(** ** Messages of a block and of its parents *)

(** A visit whose callback fetches each entry and adds it to what has been
    collected succeeds exactly when every entry can be fetched. *)
Lemma visit_entries_collect {M A : Type} (fetch : CID -> outcome A)
    (add : M -> A -> CID -> M) (entries : list CID) :
  forall m m',
    visit_entries (fun m cid => TRY a <- fetch cid; success (add m a cid))
                  m entries = success m' <->
    exists items,
      Forall2 (fun cid a => fetch cid = success a) entries items
      /\ m' = fold_left (fun m p => add m (snd p) (fst p))
                        (combine entries items) m.
Proof.
  induction entries as [| cid rest IH]; intros m m'; cbn [visit_entries].
  - split.
    + intros H. inversion H; subst. exists []. split; [constructor | reflexivity].
    + intros (items & Hf & ->). inversion Hf; subst. reflexivity.
  - split.
    + intros H. apply bind_success in H. destruct H as (m1 & H1 & H2).
      apply bind_success in H1. destruct H1 as (a & Ha & H1).
      inversion H1; subst m1; clear H1.
      apply IH in H2. destruct H2 as (items & Hf & ->).
      exists (a :: items). split; [constructor; assumption | reflexivity].
    + intros (items & Hf & ->).
      inversion Hf as [| ? a ? items' Ha Hf']; subst.
      rewrite Ha. cbn [bind combine fold_left fst snd].
      apply IH. exists items'. split; [exact Hf' | reflexivity].
Qed.

Section ArrayProperties.
Context {AR : CidArrays}.

Lemma Array_visit_success {S : Type} (store_ : Ipld) (array_root : CID)
    (f : S -> CID -> outcome S) (s s' : S) :
  Array_visit store_ array_root f s = success s' <->
  visit_entries f s (fst (array_traversal store_ array_root)) = success s'
  /\ snd (array_traversal store_ array_root) = None.
Proof.
  unfold Array_visit.
  destruct (visit_entries f s (fst (array_traversal store_ array_root)))
    as [s1 | e | w]; cbn [bind].
  - destruct (snd (array_traversal store_ array_root)) as [e |].
    + split; [discriminate | intros [_ H]; discriminate].
    + split; [intros H; split; [exact H | reflexivity] | intros [H _]; exact H].
  - split; [discriminate | intros [H _]; discriminate].
  - split; [discriminate | intros [H _]; discriminate].
Qed.

End ArrayProperties.

Lemma fold_add_bls (entries : list CID) (items : list UnsignedMessage) :
  List.length entries = List.length items ->
  forall m,
    fold_left (fun m p => {| bm_bls := bm_bls m ++ [snd p];
                             bm_secp := bm_secp m;
                             bm_cids := bm_cids m ++ [fst p] |})
              (combine entries items) m
    = {| bm_bls := bm_bls m ++ items; bm_secp := bm_secp m;
         bm_cids := bm_cids m ++ entries |}.
Proof.
  revert items. induction entries as [| cid entries IH];
    intros [| a items] Hlen m; try discriminate.
  - simpl. rewrite !app_nil_r. destruct m; reflexivity.
  - simpl in Hlen. cbn [combine fold_left fst snd].
    rewrite IH by lia. cbn [bm_bls bm_secp bm_cids].
    rewrite <- !app_assoc. reflexivity.
Qed.

Lemma fold_add_secp (entries : list CID) (items : list SignedMessage) :
  List.length entries = List.length items ->
  forall m,
    fold_left (fun m p => {| bm_bls := bm_bls m;
                             bm_secp := bm_secp m ++ [snd p];
                             bm_cids := bm_cids m ++ [fst p] |})
              (combine entries items) m
    = {| bm_bls := bm_bls m; bm_secp := bm_secp m ++ items;
         bm_cids := bm_cids m ++ entries |}.
Proof.
  revert items. induction entries as [| cid entries IH];
    intros [| a items] Hlen m; try discriminate.
  - simpl. rewrite !app_nil_r. destruct m; reflexivity.
  - simpl in Hlen. cbn [combine fold_left fst snd].
    rewrite IH by lia. cbn [bm_bls bm_secp bm_cids].
    rewrite <- !app_assoc. reflexivity.
Qed.

Section BlockMessagesProperties.
Context {P : TipsetPrimitives} {DH : CborDecode BlockHeader}
        {DS : CborDecode SignedMessage} {DU : CborDecode UnsignedMessage}
        {DM : CborDecode MsgMeta} {AR : CidArrays} {N : Node}.

(** X13.  For a block whose header and message meta load,
    [ChainGetBlockMessages] succeeds exactly when both arrays can be
    traversed and every entry decodes (BLS entries as unsigned, secp
    entries as signed messages); the messages come in array order and
    [cids] is the BLS cids followed by the secp cids. *)
Theorem ChainGetBlockMessages_spec (block_cid : CID) (block : BlockHeader)
    (meta : MsgMeta) :
  getCbor ipld block_cid = success block ->
  getCbor ipld (messages block) = success meta ->
  forall msgs,
    ChainGetBlockMessages block_cid = success msgs <->
    arrays_intact ipld meta
    /\ Forall2 (fun cid (m : UnsignedMessage) => getCbor ipld cid = success m)
               (fst (array_traversal ipld (bls_messages meta)))
               (bm_bls msgs)
    /\ Forall2 (fun cid (m : SignedMessage) => getCbor ipld cid = success m)
               (fst (array_traversal ipld (secp_messages meta)))
               (bm_secp msgs)
    /\ bm_cids msgs
       = fst (array_traversal ipld (bls_messages meta))
         ++ fst (array_traversal ipld (secp_messages meta)).
Proof.
  intros Hblock Hmeta msgs. unfold ChainGetBlockMessages, arrays_intact.
  rewrite Hblock. cbn [bind]. rewrite Hmeta. cbn [bind].
  split.
  - intros H. apply bind_success in H. destruct H as (m1 & H1 & H).
    apply bind_success in H. destruct H as (m2 & H2 & H).
    inversion H; subst m2; clear H.
    apply Array_visit_success in H1. destruct H1 as [H1 Hi1].
    apply Array_visit_success in H2. destruct H2 as [H2 Hi2].
    apply (visit_entries_collect
             (fun cid => getCbor (T := UnsignedMessage) ipld cid)
             (fun m a cid => {| bm_bls := bm_bls m ++ [a];
                                bm_secp := bm_secp m;
                                bm_cids := bm_cids m ++ [cid] |})) in H1.
    destruct H1 as (items1 & Hf1 & ->).
    apply (visit_entries_collect
             (fun cid => getCbor (T := SignedMessage) ipld cid)
             (fun m a cid => {| bm_bls := bm_bls m;
                                bm_secp := bm_secp m ++ [a];
                                bm_cids := bm_cids m ++ [cid] |})) in H2.
    destruct H2 as (items2 & Hf2 & ->).
    rewrite (fold_add_bls _ _ (Forall2_length Hf1)).
    rewrite (fold_add_secp _ _ (Forall2_length Hf2)).
    cbn [bm_bls bm_secp bm_cids app]. auto.
  - intros ([Hi1 Hi2] & Hf1 & Hf2 & Hc).
    assert (H1 :
      Array_visit ipld (bls_messages meta)
        (fun m cid =>
           TRY msg <- getCbor (T := UnsignedMessage) ipld cid;
           success {| bm_bls := bm_bls m ++ [msg]; bm_secp := bm_secp m;
                      bm_cids := bm_cids m ++ [cid] |})
        {| bm_bls := []; bm_secp := []; bm_cids := [] |}
      = success {| bm_bls := bm_bls msgs; bm_secp := [];
                   bm_cids := fst (array_traversal ipld (bls_messages meta))
                |}).
    { apply Array_visit_success. split; [| exact Hi1].
      apply (visit_entries_collect
               (fun cid => getCbor (T := UnsignedMessage) ipld cid)
               (fun m a cid => {| bm_bls := bm_bls m ++ [a];
                                  bm_secp := bm_secp m;
                                  bm_cids := bm_cids m ++ [cid] |})).
      exists (bm_bls msgs). split; [exact Hf1 |].
      rewrite (fold_add_bls _ _ (Forall2_length Hf1)). reflexivity. }
    rewrite H1. cbn [bind].
    assert (H2 :
      Array_visit ipld (secp_messages meta)
        (fun m cid =>
           TRY msg <- getCbor (T := SignedMessage) ipld cid;
           success {| bm_bls := bm_bls m; bm_secp := bm_secp m ++ [msg];
                      bm_cids := bm_cids m ++ [cid] |})
        {| bm_bls := bm_bls msgs; bm_secp := [];
           bm_cids := fst (array_traversal ipld (bls_messages meta)) |}
      = success msgs).
    { apply Array_visit_success. split; [| exact Hi2].
      apply (visit_entries_collect
               (fun cid => getCbor (T := SignedMessage) ipld cid)
               (fun m a cid => {| bm_bls := bm_bls m;
                                  bm_secp := bm_secp m ++ [a];
                                  bm_cids := bm_cids m ++ [cid] |})).
      exists (bm_secp msgs). split; [exact Hf2 |].
      rewrite (fold_add_secp _ _ (Forall2_length Hf2)).
      cbn [bm_bls bm_secp bm_cids app]. rewrite <- Hc.
      destruct msgs; reflexivity. }
    rewrite H2. reflexivity.
Qed.

End BlockMessagesProperties.

Lemma fold_left_snoc {A B : Type} (g : B -> A) (l : list B) :
  forall acc, fold_left (fun m p => m ++ [g p]) l acc = acc ++ map g l.
Proof.
  induction l as [| p l IH]; intros acc; simpl.
  - rewrite app_nil_r. reflexivity.
  - rewrite IH, <- app_assoc. reflexivity.
Qed.

Lemma map_fst_combine_Forall2 {A B : Type} (R : A -> B -> Prop)
    (l : list A) (l' : list B) :
  Forall2 R l l' -> map fst (combine l l') = l.
Proof.
  induction 1 as [| a b l l' _ _ IH]; simpl; [reflexivity |].
  rewrite IH. reflexivity.
Qed.

Section ParentMessagesProperties.
Context {P : TipsetPrimitives} {DH : CborDecode BlockHeader}
        {DS : CborDecode SignedMessage} {DU : CborDecode UnsignedMessage}
        {DM : CborDecode MsgMeta} {AR : CidArrays} {N : Node}.

Lemma parent_messages_spec (acc acc' : list CidMessage) (parent_cid : CID)
    (parent : BlockHeader) (meta : MsgMeta) :
  getCbor ipld parent_cid = success parent ->
  getCbor ipld (messages parent) = success meta ->
  parent_messages acc parent_cid = success acc' ->
  exists added,
    acc' = acc ++ added
    /\ map cm_cid added = map snd (block_messages ipld meta)
    /\ Forall stored_message added.
Proof.
  intros Hparent Hmeta. unfold parent_messages.
  rewrite Hparent. cbn [bind]. rewrite Hmeta. cbn [bind]. intros H.
  apply bind_success in H. destruct H as (acc1 & H1 & H).
  apply bind_success in H. destruct H as (acc2 & H2 & H).
  inversion H; subst acc2; clear H.
  apply Array_visit_success in H1. destruct H1 as [H1 _].
  apply Array_visit_success in H2. destruct H2 as [H2 _].
  apply (visit_entries_collect
           (fun cid => getCbor (T := UnsignedMessage) ipld cid)
           (fun m a cid => m ++ [{| cm_cid := cid; cm_message := a |}]))
    in H1.
  destruct H1 as (items1 & Hf1 & ->).
  apply (visit_entries_collect
           (fun cid => getCbor (T := SignedMessage) ipld cid)
           (fun m a cid =>
              m ++ [{| cm_cid := cid; cm_message := message a |}]))
    in H2.
  destruct H2 as (items2 & Hf2 & ->).
  rewrite (fold_left_snoc
             (fun p => {| cm_cid := fst p; cm_message := snd p |})).
  rewrite (fold_left_snoc
             (fun p => {| cm_cid := fst p; cm_message := message (snd p) |})).
  rewrite <- app_assoc. eexists. split; [reflexivity |]. split.
  - unfold block_messages. rewrite !map_app, !map_map. cbn [cm_cid snd].
    rewrite !map_id.
    change (fun x : CID * UnsignedMessage => fst x)
      with (@fst CID UnsignedMessage).
    change (fun x : CID * SignedMessage => fst x)
      with (@fst CID SignedMessage).
    rewrite (map_fst_combine_Forall2 _ _ _ Hf1).
    rewrite (map_fst_combine_Forall2 _ _ _ Hf2). reflexivity.
  - apply Forall_app. split.
    + clear Hf2. induction Hf1 as [| cid a l l' Ha Hf1 IH]; simpl;
        constructor; [left; exact Ha | exact IH].
    + clear Hf1. induction Hf2 as [| cid a l l' Ha Hf2 IH]; simpl;
        constructor; [right; exists a; auto | exact IH].
Qed.

Lemma visit_parents_spec (cids_ : list CID) :
  forall (hdrs : list BlockHeader) metas acc acc',
    Forall2 (fun cid h => getCbor ipld cid = success h) cids_ hdrs ->
    Forall2 (fun h m => getCbor ipld (messages h) = success m) hdrs metas ->
    visit_entries parent_messages acc cids_ = success acc' ->
    exists added,
      acc' = acc ++ added
      /\ map cm_cid added
         = flat_map (fun m => map snd (block_messages ipld m)) metas
      /\ Forall stored_message added.
Proof.
  induction cids_ as [| cid cids_ IH]; intros hdrs metas acc acc' Hh Hm H.
  - inversion Hh; subst. inversion Hm; subst. inversion H; subst.
    exists []. rewrite app_nil_r. repeat split. constructor.
  - inversion Hh as [| ? h ? hdrs' Hh1 Hh']; subst.
    inversion Hm as [| ? m ? metas' Hm1 Hm']; subst.
    cbn [visit_entries] in H.
    apply bind_success in H. destruct H as (acc1 & H1 & H).
    destruct (parent_messages_spec _ _ _ _ _ Hh1 Hm1 H1)
      as (added1 & -> & Hc1 & Hs1).
    destruct (IH _ _ _ _ Hh' Hm' H) as (added2 & -> & Hc2 & Hs2).
    exists (added1 ++ added2). rewrite app_assoc. split; [reflexivity |].
    split.
    + rewrite map_app, Hc1, Hc2. reflexivity.
    + apply Forall_app. auto.
Qed.

(** X14.  What [ChainGetParentMessages] returns for a block whose parents
    and their message metas load: the cids of the messages of the parents,
    parent by parent in the order of [parents], BLS array before secp array,
    nothing left out for occurring twice; each entry carries the message
    stored under its cid, a signed message reduced to its inner message. *)
Theorem ChainGetParentMessages_spec (block_cid : CID) (block : BlockHeader)
    (hdrs : list BlockHeader) (metas : list MsgMeta)
    (result : list CidMessage) :
  getCbor ipld block_cid = success block ->
  Forall2 (fun cid h => getCbor ipld cid = success h) (parents block) hdrs ->
  Forall2 (fun h m => getCbor ipld (messages h) = success m) hdrs metas ->
  ChainGetParentMessages block_cid = success result ->
  map cm_cid result
  = flat_map (fun m => map snd (block_messages ipld m)) metas
  /\ Forall stored_message result.
Proof.
  intros Hblock Hh Hm. unfold ChainGetParentMessages.
  rewrite Hblock. cbn [bind]. intros H.
  destruct (visit_parents_spec _ _ _ _ _ Hh Hm H) as (added & -> & Hc & Hs).
  auto.
Qed.

End ParentMessagesProperties.

(** ** What the walks return *)

Lemma last_cons {A : Type} (l : list A) :
  forall a d, last (a :: l) d = last l a.
Proof.
  induction l as [| b l IH]; intros a d; [reflexivity |].
  change (last (a :: b :: l) d) with (last (b :: l) d).
  rewrite (IH b d), (IH b a). reflexivity.
Qed.

Section WalkResults.
Context {P : TipsetPrimitives} {DH : CborDecode BlockHeader} {N : Node}.

Lemma by_height_loop_result (h : Z) (fuel : nat) :
  forall ts r,
    h <= Tipset_height ts ->
    by_height_loop fuel h ts = Some (success r) ->
    h <= Tipset_height r
    /\ (exists ps, ancestors ts ps /\ last ps ts = r)
    /\ (Tipset_height r = h
        \/ exists p, loadParent ipld r = success p /\ Tipset_height p < h).
Proof.
  induction fuel as [| fuel IH]; intros ts r Hts H; simpl in H.
  - destruct (Z.gtb_spec (Tipset_height ts) h); [discriminate |].
    inversion H; subst r. split; [exact Hts |].
    split; [exists []; split; [exact I | reflexivity] | left; lia].
  - destruct (Z.gtb_spec (Tipset_height ts) h).
    + destruct (loadParent ipld ts) as [parent | e | w] eqn:Hload;
        try discriminate.
      destruct (Z.ltb_spec (Tipset_height parent) h).
      * inversion H; subst r. split; [exact Hts |].
        split; [exists []; split; [exact I | reflexivity] |].
        right. exists parent. auto.
      * destruct (IH parent r ltac:(lia) H) as (Hr & (ps & Hanc & Hlast) & Hstop).
        split; [exact Hr | split; [| exact Hstop]].
        exists (parent :: ps). split; [cbn [ancestors]; split; assumption |].
        rewrite last_cons. exact Hlast.
    + inversion H; subst r. split; [exact Hts |].
      split; [exists []; split; [exact I | reflexivity] | left; lia].
Qed.

(** X15.  Whatever the chain looks like, a tipset returned by
    [ChainGetTipSetByHeight] for a non-negative target is the resolved
    tipset or one reached from it over parent links, its height is at least
    the target, and it is either at the target height or its parent is below
    the target. *)
Theorem ChainGetTipSetByHeight_result (fuel : nat) (height2 : Z)
    (tipset_key : TipsetKey) (r : Tipset) :
  0 <= height2 < 2 ^ 63 ->
  ChainGetTipSetByHeight fuel height2 tipset_key = Some (success r) ->
  height2 <= Tipset_height r
  /\ (exists context ps,
        tipsetContext tipset_key false = success context
        /\ ancestors (tipset context) ps
        /\ last ps (tipset context) = r)
  /\ (Tipset_height r = height2
      \/ exists p, loadParent ipld r = success p
                   /\ Tipset_height p < height2).
Proof.
  intros Hrange. unfold ChainGetTipSetByHeight.
  rewrite to_uint64_small by lia.
  destruct (tipsetContext tipset_key false) as [context | e | w];
    try discriminate.
  destruct (Z.ltb_spec (Tipset_height (tipset context)) height2);
    [discriminate |].
  intros Hloop.
  assert (Hstart : height2 <= Tipset_height (tipset context)) by lia.
  destruct (by_height_loop_result _ _ _ _ Hstart Hloop)
    as (Hr & (ps & Hanc & Hlast) & Hstop).
  split; [exact Hr | split; [| exact Hstop]].
  exists context, ps. auto.
Qed.

Lemma lookback_loop_result (lookback : Z) (fuel : nat) :
  forall ts r,
    lookback_loop fuel lookback ts = Some (success r) ->
    Tipset_height r <= to_uint64 lookback
    /\ exists ps, ancestors ts ps /\ last ps ts = r
                  /\ Forall (fun t => to_uint64 lookback < Tipset_height t)
                            (removelast (ts :: ps)).
Proof.
  induction fuel as [| fuel IH]; intros ts r H; simpl in H.
  - destruct (Z.gtb_spec (Tipset_height ts) (to_uint64 lookback));
      [discriminate |].
    inversion H; subst r. split; [lia |].
    exists []. repeat split. constructor.
  - destruct (Z.gtb_spec (Tipset_height ts) (to_uint64 lookback)).
    + destruct (loadParent ipld ts) as [parent | e | w] eqn:Hload;
        try discriminate.
      destruct (IH parent r H) as (Hr & ps & Hanc & Hlast & Hall).
      split; [exact Hr |].
      exists (parent :: ps). split; [cbn [ancestors]; split; assumption |]. split.
      * rewrite last_cons. exact Hlast.
      * change (removelast (ts :: parent :: ps))
          with (ts :: removelast (parent :: ps)).
        constructor; [lia | exact Hall].
    + inversion H; subst r. split; [lia |].
      exists []. repeat split. constructor.
Qed.

(** X16.  Whatever the chain looks like, the context returned by
    [getLookbackTipSetForRound] holds a tipset reached from the given one
    over parent links, at a height of at most [max(0, epoch - 10)], every
    tipset passed on the way lying above that height; its state tree is
    rooted at the interpreter's state root for that tipset. *)
Theorem getLookbackTipSetForRound_result (fuel : nat) (ts : Tipset)
    (epoch : Z) (context : TipsetContext) :
  - 2 ^ 63 + 10 <= epoch < 2 ^ 63 ->
  getLookbackTipSetForRound fuel ts epoch = Some (success context) ->
  Tipset_height (tipset context) <= Z.max 0 (epoch - 10)
  /\ (exists ps,
        ancestors ts ps /\ last ps ts = tipset context
        /\ Forall (fun t => Z.max 0 (epoch - 10) < Tipset_height t)
                  (removelast (ts :: ps)))
  /\ rooted_at_post_state context.
Proof.
  intros Hrange H.
  destruct (getLookbackTipSetForRound_unmarked _ _ _ _ H) as [_ Hroot].
  split; [| split; [| exact Hroot]];
    unfold getLookbackTipSetForRound, kWinningPoStSectorSetLookback in H;
    rewrite to_int64_small in H by lia;
    destruct (lookback_loop fuel (Z.max 0 (epoch - 10)) ts)
      as [[r | e | w] |] eqn:Hloop; try discriminate;
    cbn [bind] in H;
    destruct (interpret ipld r) as [result | e | w]; try discriminate;
    cbn [bind] in H; inversion H; subst context; cbn [tipset];
    destruct (lookback_loop_result _ _ _ _ Hloop) as (Hr & ps & Ha & Hl & Hall);
    rewrite to_uint64_small in * by lia.
  - exact Hr.
  - exists ps. auto.
Qed.

End WalkResults.

(** ** Selecting miner sectors *)

Section MinerSectorsProperties.
Context {P : TipsetPrimitives} {DH : CborDecode BlockHeader} {N : Node}
        {MS : MinerStates}.

Lemma push_selected (keep : Z -> bool)
    (entries : list (Z * SectorOnChainInfo)) :
  forall acc,
    fold_left
      (fun sectors e =>
         if keep (fst e)
         then sectors ++ [{| csi_info := snd e; csi_id := fst e |}]
         else sectors)
      entries acc
    = acc ++ map (fun e => {| csi_info := snd e; csi_id := fst e |})
                 (filter (fun e => keep (fst e)) entries).
Proof.
  induction entries as [| e entries IH]; intros acc; simpl.
  - rewrite app_nil_r. reflexivity.
  - rewrite IH. destruct (keep (fst e)); [| reflexivity].
    simpl. rewrite <- app_assoc. reflexivity.
Qed.

Lemma not_in_filter_spec (bitset : list Z) (id : Z) :
  not_in_filter bitset id = true <-> ~ In id bitset.
Proof.
  unfold not_in_filter. rewrite negb_true_iff, <- not_true_iff_false.
  rewrite existsb_exists. split.
  - intros H Hin. apply H. exists id. split; [exact Hin | apply Z.eqb_refl].
  - intros H (x & Hin & Hx). apply Z.eqb_eq in Hx. subst. contradiction.
Qed.

(** X17.  [StateMinerSectors] returns the sectors of the miner in the order
    of the sector map: all of them without a filter; with a filter and
    [filter_out] unset the sectors whose number is in the filter; with
    [filter_out] set the sectors whose number is not in it. *)
Theorem StateMinerSectors_selection (address : Address)
    (sector_filter : option (list Z)) (filter_out : bool)
    (tipset_key : TipsetKey) (context : TipsetContext)
    (state : MinerActorState) (entries : list (Z * SectorOnChainInfo)) :
  tipsetContext tipset_key false = success context ->
  minerState (state_tree context) address = success state ->
  visitSectors state = success entries ->
  exists sectors,
    StateMinerSectors address sector_filter filter_out tipset_key
    = success sectors
    /\ sectors
       = map (fun e => {| csi_info := snd e; csi_id := fst e |})
             (filter (fun e => sector_selected sector_filter filter_out
                                               (fst e)) entries)
    /\ (sector_filter = None ->
        sectors = map (fun e => {| csi_info := snd e; csi_id := fst e |})
                      entries)
    /\ (forall bitset s,
          sector_filter = Some bitset ->
          (In s sectors <->
           In (csi_id s, csi_info s) entries
           /\ if filter_out then ~ In (csi_id s) bitset
              else In (csi_id s) bitset)).
Proof.
  intros Hctx Hstate Hvisit. eexists. split.
  - unfold StateMinerSectors. rewrite Hctx. cbn [bind].
    rewrite Hstate. cbn [bind]. rewrite Hvisit. cbn [bind].
    rewrite push_selected. reflexivity.
  - cbn [app]. split; [reflexivity |]. split.
    + intros ->. cbn [sector_selected]. f_equal. clear.
      induction entries as [| e l IH]; simpl; [reflexivity |].
      f_equal. exact IH.
    + intros bitset s ->. cbn [sector_selected].
      rewrite in_map_iff. split.
      * intros ([id info] & <- & Hin). apply filter_In in Hin.
        destruct Hin as [Hin Hsel]. cbn [fst snd csi_id csi_info] in *.
        split; [exact Hin |].
        destruct filter_out; cbn [Bool.eqb] in Hsel.
        -- destruct (not_in_filter bitset id) eqn:Hn; [| discriminate].
           apply not_in_filter_spec. exact Hn.
        -- destruct (not_in_filter bitset id) eqn:Hn; [discriminate |].
           destruct (in_dec Z.eq_dec id bitset) as [Hy | Hno]; [exact Hy |].
           apply not_in_filter_spec in Hno. congruence.
      * intros [Hin Hsel]. exists (csi_id s, csi_info s).
        split; [destruct s; reflexivity |].
        apply filter_In. split; [exact Hin |]. cbn [fst].
        destruct filter_out; cbn [Bool.eqb].
        -- apply not_in_filter_spec in Hsel. rewrite Hsel. reflexivity.
        -- destruct (not_in_filter bitset (csi_id s)) eqn:Hn; [| reflexivity].
           apply not_in_filter_spec in Hn. contradiction.
Qed.

End MinerSectorsProperties.

(** ** The further properties on the fixtures *)

Module TipsetScenarios.
Import Fixture ExtraFixture.

#[local] Existing Instance primitives.
#[local] Existing Instance decode_header.
#[local] Existing Instance decode_candidate.
#[local] Existing Instance node.

Lemma created_tipset_invariants_witness :
  exists t,
    create [b2; b1] = success t
    /\ Permutation (blks t) [b2; b1]
    /\ uniform (blks t)
    /\ Forall2 (fun b cid => getCidOfCbor b = success cid)
               (blks t) (cids (key t))
    /\ ([b2; b1] <> [] ->
        TipsetKey_hash (cids (key t)) = success (hash (key t)))
    /\ ([b2; b1] = [] -> t = Tipset_default).
Proof.
  eexists. split; [reflexivity |].
  apply (created_tipset_invariants [b2; b1]). reflexivity.
Defined.

(** Headers at two heights are refused, and that error is one of the
    listed ones. *)
Lemma create_errors_witness :
  create [b1; higher] = failure (ETipset MISMATCHING_HEIGHTS)
  /\ (ETipset MISMATCHING_HEIGHTS = ETipset TICKET_HAS_NO_VALUE
      \/ ETipset MISMATCHING_HEIGHTS = ETipset MISMATCHING_HEIGHTS
      \/ ETipset MISMATCHING_HEIGHTS = ETipset MISMATCHING_PARENTS
      \/ ETipset MISMATCHING_HEIGHTS = ETipset TICKETS_COLLISION
      \/ exists b, In b [b1; higher]
                   /\ getCidOfCbor b = failure (ETipset MISMATCHING_HEIGHTS)).
Proof.
  split; [reflexivity |].
  apply (proj1 (create_errors [b1; higher])). reflexivity.
Defined.

Lemma create_second_header_checks_witness :
  create [b1; genesis] = failure (ETipset TICKET_HAS_NO_VALUE)
  /\ create [b1; higher; b2] = failure (ETipset MISMATCHING_HEIGHTS)
  /\ create [b1; stranger] = failure (ETipset MISMATCHING_PARENTS)
  /\ create [b2; b2dup] = failure (ETipset TICKETS_COLLISION).
Proof.
  assert (Hc1 : getCidOfCbor b1 = success "blk-b1") by reflexivity.
  assert (Hc2 : getCidOfCbor b2 = success "blk-b2") by reflexivity.
  split; [| split; [| split]].
  - apply (proj1 (create_second_header_checks b1 genesis [] "blk-b1" Hc1)).
    reflexivity.
  - apply (proj1 (proj2 (create_second_header_checks b1 higher [b2] "blk-b1"
                           Hc1))).
    + discriminate.
    + discriminate.
  - apply (proj1 (proj2 (proj2 (create_second_header_checks b1 stranger []
                                  "blk-b1" Hc1)))).
    + discriminate.
    + reflexivity.
    + discriminate.
  - apply (proj2 (proj2 (proj2 (create_second_header_checks b2 b2dup []
                                  "blk-b2" Hc2)))
             {| bytes := [x02] |} {| bytes := [x02] |} "blk-b2dup");
      reflexivity.
Defined.

Lemma create_single_witness :
  create [genesis]
  = success {| key := {| hash := list_byte_of_string "blk-genesis";
                         cids := ["blk-genesis"] |};
               blks := [genesis] |}.
Proof.
  apply (create_single genesis "blk-genesis"); reflexivity.
Defined.

(** The duplicate of [b2]'s ticket gets in when [b1] is in front. *)
Lemma create_third_header_unchecked_witness :
  create [b1; b2; b2dup]
  = success {| key := {| hash := list_byte_of_string
                                   "blk-b2dup,blk-b1,blk-b2";
                         cids := ["blk-b2dup"; "blk-b1"; "blk-b2"] |};
               blks := [b2dup; b1; b2] |}
  /\ ticket b2dup = ticket b2.
Proof.
  split; [| reflexivity].
  apply (create_third_header_unchecked b1 b2 b2dup
           {| bytes := [x01] |} {| bytes := [x02] |} {| bytes := [x02] |}
           "blk-b1" "blk-b2" "blk-b2dup");
    reflexivity.
Defined.

Lemma created_tipset_accessors_witness :
  exists t,
    create [b2; b1] = success t
    /\ (Tipset_height t = 10
        /\ getParents t = TipsetKey_create ["blk-h7"])
    /\ (contains t "blk-b1" = true <->
        exists b, In b [b2; b1] /\ getCidOfCbor b = success "blk-b1").
Proof.
  eexists. split; [reflexivity |].
  match goal with
  | |- (Tipset_height ?t = _ /\ _) /\ _ =>
      assert (Hcreate : create [b2; b1] = success t) by reflexivity;
      destruct (created_tipset_accessors [b2; b1] t Hcreate) as (H1 & _ & H3)
  end.
  split; [exact (H1 b1 (or_intror (or_introl eq_refl))) | exact (H3 "blk-b1")].
Defined.

Lemma getMinTimestamp_is_minimum_witness :
  getMinTimestamp mixed = 900
  /\ (forall b, In b (blks mixed) -> getMinTimestamp mixed <= timestamp b)
  /\ (exists b, In b (blks mixed) /\ getMinTimestamp mixed = timestamp b).
Proof.
  split; [reflexivity |].
  apply (getMinTimestamp_is_minimum mixed). discriminate.
Defined.

Lemma load_spec_witness :
  load the_store ["blk-h7"] = success (tipset_of h7)
  /\ load the_store (["blk-h7"] ++ "blk-unknown" :: ["blk-h5"])
     = failure (EOther "not found").
Proof.
  split.
  - apply (proj1 (load_spec the_store)). exists [h7].
    split; [repeat constructor | reflexivity].
  - apply (proj1 (proj2 (load_spec the_store)) ["blk-h7"] [h7]).
    + repeat constructor.
    + reflexivity.
Defined.

(** An encoding without blocks at height 5 is refused; the encoding of
    [b1; b2] decodes although it claims height 999. *)
Lemma decode_Tipset_spec_witness :
  decode_Tipset [x21] = failure (ETipset MISMATCHING_HEIGHTS)
  /\ exists t, decode_Tipset [x20] = success t
               /\ cids (key t) = ["blk-b1"; "blk-b2"]
               /\ Tipset_height t = 10.
Proof.
  assert (Hd1 : decode (T := TipsetDecodeCandidate) [x21]
                = success {| candidate_cids := []; candidate_blks := [];
                             candidate_height := 5 |}) by reflexivity.
  assert (Hd0 : decode (T := TipsetDecodeCandidate) [x20]
                = success {| candidate_cids := ["blk-b1"; "blk-b2"];
                             candidate_blks := [b1; b2];
                             candidate_height := 999 |}) by reflexivity.
  split.
  - apply (proj1 (decode_Tipset_spec [x21] _ Hd1)).
    + reflexivity.
    + discriminate.
  - eexists. split; [reflexivity |].
    match goal with
    | |- cids (key ?t) = _ /\ _ =>
        assert (Hrun : decode_Tipset [x20] = success t) by reflexivity;
        destruct (proj1 (proj2 (decode_Tipset_spec [x20] _ Hd0)) t Hrun)
          as (_ & Hcids & _)
    end.
    split; [exact Hcids | reflexivity].
Defined.

Lemma ChainGetTipSetByHeight_result_witness :
  6 <= Tipset_height t7
  /\ (exists context ps,
        tipsetContext head_key false = success context
        /\ ancestors (tipset context) ps
        /\ last ps (tipset context) = t7)
  /\ (Tipset_height t7 = 6
      \/ exists p, loadParent ipld t7 = success p /\ Tipset_height p < 6).
Proof.
  apply (ChainGetTipSetByHeight_result 2 6 head_key t7).
  - lia.
  - reflexivity.
Defined.

Lemma ChainGetTipSetByHeight_negative_witness :
  ChainGetTipSetByHeight 0 (-1) head_key = Some (failure ETodo).
Proof.
  apply (ChainGetTipSetByHeight_negative (-1) head_key head_context 0).
  - lia.
  - reflexivity.
  - vm_compute. reflexivity.
Defined.

Lemma getLookbackTipSetForRound_result_witness :
  exists context,
    getLookbackTipSetForRound 2 t10 15 = Some (success context)
    /\ Tipset_height (tipset context) <= Z.max 0 (15 - 10)
    /\ (exists ps,
          ancestors t10 ps /\ last ps t10 = tipset context
          /\ Forall (fun t => Z.max 0 (15 - 10) < Tipset_height t)
                    (removelast (t10 :: ps)))
    /\ rooted_at_post_state context.
Proof.
  eexists. split; [reflexivity |].
  apply (getLookbackTipSetForRound_result 2 t10 15).
  - lia.
  - reflexivity.
Defined.

End TipsetScenarios.

Module MessageScenarios.
Import Fixture MessageFixture ExtraFixture.

#[local] Existing Instance primitives.
#[local] Existing Instance decode_header.
#[local] Existing Instance decode_signed.
#[local] Existing Instance decode_unsigned_messages.
#[local] Existing Instance decode_meta.
#[local] Existing Instance arrays.
#[local] Existing Instance message_node.
#[local] Existing Instance node_paths.
#[local] Existing Instance miner_states.

(** The two siblings share two of their messages: three calls. *)
Lemma visitMessages_calls_witness :
  visitMessages message_store recorder [] siblings
  = success [(0%nat, true, "msg-unsigned"); (1%nat, false, "msg-signed");
             (2%nat, true, "msg-unsigned-2")].
Proof.
  rewrite (proj1 (visitMessages_calls _ recorder message_store []
                    siblings [meta_1; meta_2]
                    ltac:(repeat constructor))).
  reflexivity.
Defined.

Lemma ChainGetBlockMessages_spec_witness :
  ChainGetBlockMessages "blk-b2"
  = success {| bm_bls := [unsigned_msg; unsigned_msg_2];
               bm_secp := [signed_msg];
               bm_cids := ["msg-unsigned"; "msg-unsigned-2"; "msg-signed"] |}.
Proof.
  assert (Hb : getCbor ipld "blk-b2" = success b2) by reflexivity.
  assert (Hm : getCbor ipld (messages b2) = success meta_2) by reflexivity.
  apply (proj2 (ChainGetBlockMessages_spec "blk-b2" b2 meta_2 Hb Hm _)).
  repeat split; repeat constructor.
Defined.

(** The parent of [h10] is [h7], whose messages are those of the first
    meta. *)
Lemma ChainGetParentMessages_spec_witness :
  exists result,
    ChainGetParentMessages "blk-h10" = success result
    /\ map cm_cid result = ["msg-unsigned"; "msg-signed"]
    /\ Forall stored_message result.
Proof.
  assert (Hb : getCbor ipld "blk-h10" = success h10) by reflexivity.
  assert (Hh : Forall2 (fun cid (h : BlockHeader) =>
                          getCbor ipld cid = success h) (parents h10) [h7])
    by repeat constructor.
  assert (Hm : Forall2 (fun (h : BlockHeader) m =>
                          getCbor ipld (messages h) = success m)
                       [h7] [meta_1])
    by repeat constructor.
  eexists. split; [reflexivity |].
  match goal with
  | |- map cm_cid ?r = _ /\ _ =>
      assert (Hrun : ChainGetParentMessages "blk-h10" = success r)
        by reflexivity;
      destruct (ChainGetParentMessages_spec "blk-h10" h10 [h7] [meta_1] r
                  Hb Hh Hm Hrun) as [H1 H2]
  end.
  split; [exact H1 | exact H2].
Defined.

Lemma ChainGetNode_prefix_witness :
  ChainGetNode "ipfs/root/a" = failure ETodo
  /\ exists root_str rest,
       split_slash "root/a/b" = root_str :: rest
       /\ ChainGetNode "/ipfs/root/a/b"
          = TRY node_root <- CID_fromString root_str;
            getNode ipld node_root rest.
Proof.
  split.
  - apply (proj1 (ChainGetNode_prefix "ipfs/root/a")). reflexivity.
  - apply (proj2 (ChainGetNode_prefix "/ipfs/root/a/b") "root/a/b").
    reflexivity.
Defined.

(** Sectors 4, 7 and 9 with the filter {7, 9, 11}: kept, or left out. *)
Lemma StateMinerSectors_selection_witness :
  StateMinerSectors "t01000" (Some [7; 9; 11]) false head_key
  = success [{| csi_info := info_of "sealed-7"; csi_id := 7 |};
             {| csi_info := info_of "sealed-9"; csi_id := 9 |}]
  /\ StateMinerSectors "t01000" (Some [7; 9; 11]) true head_key
     = success [{| csi_info := info_of "sealed-4"; csi_id := 4 |}].
Proof.
  pose (here := {| tipset := t10;
                   state_tree := {| store := message_store;
                                    root := "state-before-h10" |};
                   interpreted := None |}).
  assert (Hc : tipsetContext head_key false = success here) by reflexivity.
  assert (Hs : minerState (state_tree here) "t01000" = success miner_state)
    by reflexivity.
  assert (Hv : visitSectors miner_state
               = success [(4, info_of "sealed-4"); (7, info_of "sealed-7");
                          (9, info_of "sealed-9")]) by reflexivity.
  split.
  - destruct (StateMinerSectors_selection "t01000" (Some [7; 9; 11]) false
                head_key here miner_state _ Hc Hs Hv)
      as (sectors & Hrun & Heq & _).
    rewrite Hrun, Heq. reflexivity.
  - destruct (StateMinerSectors_selection "t01000" (Some [7; 9; 11]) true
                head_key here miner_state _ Hc Hs Hv)
      as (sectors & Hrun & Heq & _).
    rewrite Hrun, Heq. reflexivity.
Defined.

End MessageScenarios.

(** ** Loading the key of a created tipset *)

Section LoadCreated.
Context {P : TipsetPrimitives} {DH : CborDecode BlockHeader}.


End LoadCreated.

(** ** Outcomes of the winning sector selection *)

Section WinningPoStOutcomes.
Context {PR : Proofs}.

Lemma collect_indices_success (sectors : list SectorInfo)
    (indices : list N) :
  Forall (fun i => (N.to_nat i < List.length sectors)%nat) indices ->
  exists result, collect_indices sectors indices = success result.
Proof.
  induction 1 as [| i indices Hi _ [result IH]]; simpl; [eauto |].
  unfold at_index. destruct (nth_error sectors (N.to_nat i)) eqn:Hn.
  - cbn [bind]. rewrite IH. cbn [bind]. eauto.
  - apply nth_error_None in Hn. lia.
Qed.

Lemma collect_indices_out_of_range (sectors : list SectorInfo)
    (indices : list N) :
  Exists (fun i => (List.length sectors <= N.to_nat i)%nat) indices ->
  collect_indices sectors indices = abort OutOfRange.
Proof.
  induction indices as [| i indices IH]; intros H;
    [inversion H |].
  simpl. unfold at_index.
  destruct (nth_error sectors (N.to_nat i)) eqn:Hn; [| reflexivity].
  cbn [bind]. inversion H as [? ? Hi | ? ? Hrest]; subst.
  - apply nth_error_None in Hi. congruence.
  - rewrite (IH Hrest). reflexivity.
Qed.

(** X20.  With the proof types known and the proving set visited:
    an empty proving set gives the empty list without asking for a
    challenge; a non-empty one is returned whole when the challenge
    generator answers indices inside the set, a failure of the generator is
    returned, and an index outside the set is read outside the vector. *)
Theorem getSectorsForWinningPoSt_outcomes (miner_addr : Address)
    (state : MinerActorState) (post_rand : Randomness)
    (seal_type win_type : RegisteredProof) (visited : list (Z * CID)) :
  sealProofTypeFromSectorSize (sector_size (info state)) = success seal_type ->
  getRegisteredWinningPoStProof seal_type = success win_type ->
  visitProvingSet state = success visited ->
  let sectors :=
    map (fun e => {| registered_proof := win_type; sector := fst e;
                     sealed_cid := snd e |}) visited in
  let challenge :=
    generateWinningPoStSectorChallenge win_type (getId miner_addr) post_rand
      (Z.of_nat (List.length sectors)) in
  (visited = [] ->
   getSectorsForWinningPoSt miner_addr state post_rand = success [])
  /\ (forall indices,
        visited <> [] -> challenge = success indices ->
        Forall (fun i => (N.to_nat i < List.length sectors)%nat) indices ->
        getSectorsForWinningPoSt miner_addr state post_rand = success sectors)
  /\ (forall e,
        visited <> [] -> challenge = failure e ->
        getSectorsForWinningPoSt miner_addr state post_rand = failure e)
  /\ (forall indices,
        visited <> [] -> challenge = success indices ->
        Exists (fun i => (List.length sectors <= N.to_nat i)%nat) indices ->
        getSectorsForWinningPoSt miner_addr state post_rand
        = abort OutOfRange).
Proof.
  intros Hseal Hwin Hvisit sectors challenge.
  unfold getSectorsForWinningPoSt.
  rewrite Hseal. cbn [bind]. rewrite Hwin. cbn [bind].
  rewrite Hvisit. cbn [bind]. fold sectors.
  split; [| split; [| split]].
  - intros ->. reflexivity.
  - intros indices Hne Hch Hall.
    destruct sectors as [| s rest] eqn:Hs;
      [destruct visited; [contradiction | discriminate] |].
    fold challenge. rewrite Hch. cbn [bind].
    destruct (collect_indices_success (s :: rest) indices Hall) as (res & Hres).
    rewrite Hres. reflexivity.
  - intros e Hne Hch.
    destruct sectors as [| s rest] eqn:Hs;
      [destruct visited; [contradiction | discriminate] |].
    fold challenge. rewrite Hch. reflexivity.
  - intros indices Hne Hch Hout.
    destruct sectors as [| s rest] eqn:Hs;
      [destruct visited; [contradiction | discriminate] |].
    fold challenge. rewrite Hch. cbn [bind].
    rewrite (collect_indices_out_of_range (s :: rest) indices Hout).
    reflexivity.
Qed.

End WinningPoStOutcomes.

Module FurtherScenarios.
Import Fixture ExtraFixture.

#[local] Existing Instance primitives.
#[local] Existing Instance decode_header.
#[local] Existing Instance proofs.


(** The generator of the fixture answers index 1 of two sectors. *)
Lemma getSectorsForWinningPoSt_outcomes_witness :
  getSectorsForWinningPoSt "t01000" miner_state [] = success [s4; s9].
Proof.
  assert (Hseal : sealProofTypeFromSectorSize (sector_size (info miner_state))
                  = success 3) by reflexivity.
  assert (Hwin : getRegisteredWinningPoStProof 3 = success 13)
    by reflexivity.
  assert (Hvisit : visitProvingSet miner_state
                   = success [(4, "sealed-4"); (9, "sealed-9")])
    by reflexivity.
  apply (proj1 (proj2 (getSectorsForWinningPoSt_outcomes "t01000" miner_state
                         [] 3 13 _ Hseal Hwin Hvisit)) [1%N]).
  - discriminate.
  - reflexivity.
  - repeat constructor.
Defined.

End FurtherScenarios.
